(** * script.js: toast notifications, active nav link tracking, escapeHtml

    A shallow embedding of three parts of [src/script.js]:
    - [showToast] / [removeToast] and the page-wide [_toasts] map,
    - the IntersectionObserver callback of [initSmoothScrollAndActiveLinks],
      its [buildThresholdList] and the rule by which the observer reports
      sections to it,
    - [escapeHtml].
    and, further down, of [validateEmail] and the submit handler of
    [initContactForm], of the menu listeners of [initHamburgerNav], of
    [openProjectModal] and of the Escape handling of
    [initAccessibilityShortcuts].

    JavaScript values are a small tagged union, option objects are finite
    maps from property names to values, DOM elements live in a store and are
    referred to by handle, so that the element kept in [_toasts] and the
    element appended to the wrapper are one object. *)

From Stdlib Require Import ZArith QArith Lia Lqa Ascii String.
From stdpp Require Import base gmap sets list strings pretty.

(** ** JavaScript values and the host functions the script relies on *)

Module JS.

(** The values the script passes around.  [VNum n] is a number that is an
    integer; it is a number of the language when a double holds it, as
    every integer below 2^53 is. *)
Inductive value :=
| VUndef
| VNull
| VBool (b : bool)
| VNum (n : Z)
| VStr (s : string).

#[global] Instance value_eq_dec : EqDecision value.
Proof. solve_decision. Defined.

Definition value_enc (v : value) : (bool + bool) + (Z + string) :=
  match v with
  | VUndef => inl (inl false)
  | VNull => inl (inl true)
  | VBool b => inl (inr b)
  | VNum n => inr (inl n)
  | VStr s => inr (inr s)
  end.

Definition value_dec (x : (bool + bool) + (Z + string)) : value :=
  match x with
  | inl (inl false) => VUndef
  | inl (inl true) => VNull
  | inl (inr b) => VBool b
  | inr (inl n) => VNum n
  | inr (inr s) => VStr s
  end.

Lemma value_dec_enc v : value_dec (value_enc v) = v.
Proof. by destruct v. Qed.

#[global] Instance value_countable : Countable value :=
  inj_countable' value_enc value_dec value_dec_enc.

(** [!v] is [negb (truthy v)].  Numbers are integers here, so NaN does not
    occur. *)
Definition truthy (v : value) : bool :=
  match v with
  | VUndef | VNull => false
  | VBool b => b
  | VNum n => negb (n =? 0)%Z
  | VStr s => match s with EmptyString => false | String _ _ => true end
  end.

(** [a || b] *)
Definition or_else (a b : value) : value := if truthy a then a else b.

(** An object literal used as a bag of options; [o.k] of a missing
    property is [undefined]. *)
Definition prop (o : gmap string value) (k : string) : value :=
  default VUndef (o !! k).

(** *** Numbers as the host holds them

    A number is a double: a significand of 53 bits times a power of 2.
    [nearest_double x] is the double nearest to a positive rational [x],
    ties going to the even significand; [None] stands for Infinity.  The
    doubles below 2^-1022, which are spaced evenly, are not needed here:
    text is read for its integer part only, and the sums of
    [buildThresholdList] are above 2^-5. *)
Definition nearest_double (x : Q) : option Q :=
  let a := Qnum x in
  let b := Z.pos (Qden x) in
  let k := (Z.log2 b - Z.log2 a)%Z in
  let e := if (b <=? a)%Z then Z.log2 (a / b)
           else if (b <=? a * 2 ^ k)%Z then (- k)%Z
           else (- k - 1)%Z in
  let sh := (52 - e)%Z in
  let n := if (0 <=? sh)%Z then (a * 2 ^ sh)%Z else a in
  let d := if (0 <=? sh)%Z then b else (b * 2 ^ (- sh))%Z in
  let fl := (n / d)%Z in
  let rem := (n mod d)%Z in
  let m := if (2 * rem <? d)%Z then fl
           else if (d <? 2 * rem)%Z then (fl + 1)%Z
           else (fl + fl mod 2)%Z in
  if ((1024 <=? e) || ((e =? 1023) && (m =? 2 ^ 53)))%Z then None
  else if (0 <=? sh)%Z then Some (m # Z.to_pos (2 ^ sh))
  else Some (inject_Z (m * 2 ^ (- sh))).

(** [x + y] on doubles, [x + y] positive or 0, and a decimal literal of
    the source as the double it denotes. *)
Definition double_add (x y : Q) : Q := default 0%Q (nearest_double (x + y)).

Definition double_lit (q : Q) : Q := default 0%Q (nearest_double q).

(** The decimal [s * 10^p] reads back as the double [x]. *)
Definition reads_back (x : Z) (p : Z) (s : Z) : bool :=
  match nearest_double (inject_Z (s * 10 ^ p)) with
  | Some y => Qeq_bool y (inject_Z x)
  | None => false
  end.

(** The number of decimal digits of a positive integer. *)
Definition ndigits (x : Z) : Z := Z.of_nat (String.length (pretty x)).

(** The digit string of [k] digits that reads back as [x], if there is
    one, with the number [n] of digits before the decimal point: [x] cut
    to [k] digits, or the next digit string up; the nearer to [x] is
    tried first, the even one when they are as near. *)
Definition shortest_at (x : Z) (k : Z) : option (Z * Z) :=
  let nd := ndigits x in
  let lo := (x / 10 ^ (nd - k))%Z in
  let down := (lo, nd) in
  let up := if (lo + 1 <? 10 ^ k)%Z then (lo + 1, nd)%Z
            else (10 ^ (k - 1), nd + 1)%Z in
  let val (c : Z * Z) := (c.1 * 10 ^ (c.2 - k))%Z in
  let ok (c : Z * Z) := reads_back x (c.2 - k) c.1 in
  let down_first :=
    (x - val down <? val up - x)%Z
    || ((x - val down =? val up - x)%Z && Z.even lo) in
  List.find ok (if down_first then [down; up] else [up; down]).

(** The shortest digit string that reads back as [x], looked for from [k]
    digits on: its value, its length and the place of the decimal point.
    No double needs more than 17 digits. *)
Fixpoint shortest_from (fuel : nat) (x : Z) (k : Z) : option (Z * Z * Z) :=
  match fuel with
  | O => None
  | S fuel' =>
      if (ndigits x <? k)%Z then None
      else match shortest_at x k with
           | Some (s, n) => Some (s, k, n)
           | None => shortest_from fuel' x (k + 1)
           end
  end.

Fixpoint zeros (n : nat) : string :=
  match n with O => "" | S n' => String "0" (zeros n') end.

(** [String(x)] for a positive integer [x]: the shortest digits, filled up
    with zeros below 10^21 and in exponent form from there on. *)
Definition pos_to_string (x : Z) : string :=
  match shortest_from 17 x 1 with
  | Some (s, k, n) =>
      if (n <=? 21)%Z then pretty s +:+ zeros (Z.to_nat (n - k))
      else
        match pretty s with
        | String c rest =>
            String c (match rest with
                      | EmptyString => ""
                      | _ => "." +:+ rest
                      end) +:+ "e+" +:+ pretty (n - 1)%Z
        | EmptyString => ""
        end
  | None => pretty x
  end.

(** [String(v)].  A number is an integer here; one that no double holds
    is no number of the language and is left as its digits. *)
Definition to_string (v : value) : string :=
  match v with
  | VUndef => "undefined"
  | VNull => "null"
  | VBool true => "true"
  | VBool false => "false"
  | VNum n =>
      if (n =? 0)%Z then "0"
      else if (n <? 0)%Z then "-" +:+ pos_to_string (- n)
      else pos_to_string n
  | VStr s => s
  end.


(** *** Text read as a number

    A string is held as the bytes of its UTF-8 form.  [ws_width s] is the
    number of bytes of the white space or line terminator character [s]
    starts with, 0 when it starts with none. *)
Definition ws_width (s : string) : nat :=
  match (λ c, nat_of_ascii c) <$> list_ascii_of_string s with
  | 9 :: _ | 10 :: _ | 11 :: _ | 12 :: _ | 13 :: _ | 32 :: _ => 1
  | 194 :: 160 :: _ => 2
  | 225 :: 154 :: 128 :: _ => 3
  | 226 :: 128 :: c :: _ =>
      if ((128 <=? c) && (c <=? 138) || (c =? 168) || (c =? 169)
          || (c =? 175))%nat then 3 else 0
  | 226 :: 129 :: 159 :: _ => 3
  | 227 :: 128 :: 128 :: _ => 3
  | 239 :: 187 :: 191 :: _ => 3
  | _ => 0
  end%nat.

Fixpoint drop_bytes (n : nat) (s : string) : string :=
  match n, s with
  | S n', String _ s' => drop_bytes n' s'
  | _, _ => s
  end.

Fixpoint strip_ws_fuel (fuel : nat) (s : string) : string :=
  match fuel with
  | O => s
  | S fuel' =>
      match ws_width s with
      | O => s
      | w => strip_ws_fuel fuel' (drop_bytes w s)
      end
  end.

Definition strip_ws (s : string) : string := strip_ws_fuel (String.length s) s.

(** The bytes up to the first white space or non-ASCII byte, and the
    rest. *)
Fixpoint token (s : string) : string * string :=
  match s with
  | EmptyString => ("", "")
  | String c s' =>
      if ((128 <=? nat_of_ascii c) || negb (ws_width s =? 0))%nat then ("", s)
      else let '(t, r) := token s' in (String c t, r)
  end.

(** The value of a digit, [0-9], [A-F] or [a-f]. *)
Definition hex_digit_of (c : ascii) : option Z :=
  let n := Z.of_nat (nat_of_ascii c) in
  if ((48 <=? n) && (n <=? 57))%Z then Some (n - 48)%Z
  else if ((65 <=? n) && (n <=? 70))%Z then Some (n - 55)%Z
  else if ((97 <=? n) && (n <=? 102))%Z then Some (n - 87)%Z
  else None.

(** The digits [s] starts with, in base [base]: their value after [acc],
    how many they are, and what follows them. *)
Fixpoint digits_acc (base : Z) (acc : Z) (cnt : nat) (s : string)
  : Z * nat * string :=
  match s with
  | EmptyString => (acc, cnt, s)
  | String c s' =>
      match hex_digit_of c with
      | Some d =>
          if (d <? base)%Z then digits_acc base (base * acc + d)%Z (S cnt) s'
          else (acc, cnt, s)
      | None => (acc, cnt, s)
      end
  end.

(** What a numeric string denotes: no number, an infinity, or a sign and
    a magnitude. *)
Inductive numeral :=
| NaN
| Infinite
| Finite (negative : bool) (magnitude : Q).

(** [0x], [0o] and [0b] literals: digits only, at least one, no sign. *)
Definition radix_literal (base : Z) (s : string) : numeral :=
  match digits_acc base 0 0 s with
  | (n, S _, EmptyString) => Finite false (inject_Z n)
  | _ => NaN
  end.

(** The exponent part, if [s] is one or is empty. *)
Definition exponent_part (s : string) : option Z :=
  match s with
  | EmptyString => Some 0%Z
  | String c s' =>
      if (if Ascii.eqb c "e" then true else Ascii.eqb c "E") then
        let '(neg, ds) :=
          match s' with
          | String "-" r => (true, r)
          | String "+" r => (false, r)
          | _ => (false, s')
          end in
        match digits_acc 10 0 0 ds with
        | (n, S _, EmptyString) => Some (if neg then (- n)%Z else n)
        | _ => None
        end
      else None
  end.

(** Digits with an optional fraction and exponent; one digit at least
    before or after the point. *)
Definition decimal_literal (neg : bool) (s : string) : numeral :=
  let '(i, ci, r1) := digits_acc 10 0 0 s in
  let '(m, cf, r2) :=
    match r1 with
    | String "." r => let '(m, c, r') := digits_acc 10 i 0 r in (m, c, r')
    | _ => (i, O, r1)
    end in
  if (ci + cf =? 0)%nat then NaN
  else
    match exponent_part r2 with
    | Some e =>
        let p := (e - Z.of_nat cf)%Z in
        Finite neg (if (0 <=? p)%Z then inject_Z (m * 10 ^ p)
                    else m # Z.to_pos (10 ^ (- p)))
    | None => NaN
    end.

Definition signed_literal (neg : bool) (s : string) : numeral :=
  if String.eqb s "Infinity" then Infinite else decimal_literal neg s.

(** [StringToNumber] on a string without white space around it. *)
Definition numeric_literal (s : string) : numeral :=
  match s with
  | EmptyString => Finite false 0
  | String "0" (String "x" r) | String "0" (String "X" r) => radix_literal 16 r
  | String "0" (String "o" r) | String "0" (String "O" r) => radix_literal 8 r
  | String "0" (String "b" r) | String "0" (String "B" r) => radix_literal 2 r
  | String "-" r => signed_literal true r
  | String "+" r => signed_literal false r
  | _ => signed_literal false s
  end.

Definition integer_part (q : Q) : Z := (Qnum q / Z.pos (Qden q))%Z.

(** The integer part of the number a string converts to; 0 when that is
    NaN or an infinity, as a timer delay takes them. *)
Definition string_to_integer (s : string) : Z :=
  let '(t, r) := token (strip_ws s) in
  if negb (String.eqb (strip_ws r) "") then 0%Z
  else
    match numeric_literal t with
    | Finite neg q =>
        if Qle_bool (1 # 2) q then
          match nearest_double q with
          | Some d => if neg then (- integer_part d)%Z else integer_part d
          | None => 0%Z
          end
        else 0%Z
    | _ => 0%Z
    end.

(** The integer a timer delay is converted to, before it is cut to 32
    bits: the number itself, 1 and 0 for [true] and [false], 0 for
    [null] and [undefined]. *)
Definition to_number (v : value) : Z :=
  match v with
  | VUndef | VNull => 0%Z
  | VBool b => if b then 1%Z else 0%Z
  | VNum n => n
  | VStr s => string_to_integer s
  end.

(** A timer delay is a 32-bit signed integer: the number wraps around
    modulo 2^32 and a negative delay counts as 0. *)
Definition to_int32 (n : Z) : Z :=
  let m := (n mod 2 ^ 32)%Z in
  if (m <? 2 ^ 31)%Z then m else (m - 2 ^ 32)%Z.

Definition timeout_ms (v : value) : Z := Z.max 0 (to_int32 (to_number v)).

(** [Array.prototype.sort(cmp)]: a stable sort; [x] goes before [y] when
    [cmp x y <= 0]. *)
Fixpoint sort_insert {A} (cmp : A → A → Q) (x : A) (l : list A) : list A :=
  match l with
  | [] => [x]
  | y :: l' =>
      if Qle_bool (cmp x y) 0 then x :: y :: l'
      else y :: sort_insert cmp x l'
  end.

Definition sort {A} (cmp : A → A → Q) (l : list A) : list A :=
  foldr (sort_insert cmp) [] l.

(** [s.startsWith(c)] for a one-character [c] *)
Definition startsWith (c : ascii) (s : string) : bool :=
  match s with
  | String c' _ => bool_decide (c' = c)
  | EmptyString => false
  end.

(** [s.replace(c, r)] for a one-character pattern: the first occurrence
    only. *)
Fixpoint replace (c : ascii) (r : string) (s : string) : string :=
  match s with
  | EmptyString => EmptyString
  | String c' s' =>
      if decide (c' = c) then r +:+ s' else String c' (replace c r s')
  end.

(** [s.replaceAll(c, r)] for a one-character pattern and a replacement
    without [$]: every occurrence, left to right. *)
Fixpoint replaceAll (c : ascii) (r : string) (s : string) : string :=
  match s with
  | EmptyString => EmptyString
  | String c' s' =>
      if decide (c' = c) then r +:+ replaceAll c r s'
      else String c' (replaceAll c r s')
  end.

End JS.

Import JS.

(** ** SMALL TOASTS *)

Module Toast.

(** A [div.vk-toast]; [style] maps CSS property names to their values. *)
Record element := Element {
  className : string;
  textContent : string;
  style : gmap string string
}.

(** A pending [setTimeout(() => removeToast(id), delay)]: the time it is
    due and the [id] its closure captured. *)
Record timer := Timer {
  due : Z;
  tid : value
}.

(** [toasts] is the [_toasts] Map (id to element handle), [store] holds
    every element created so far (a handle is an index into it),
    [wrapper] is the child list of [#vk-toast-wrapper], or [None] while
    that element is not in the document, [timers] are the pending
    timeouts in the order they were set, [now] is the clock. *)
Record state := State {
  toasts : gmap value nat;
  store : list element;
  wrapper : option (list nat);
  timers : list timer;
  now : Z
}.

Definition init : state :=
  {| toasts := ∅; store := []; wrapper := None; timers := []; now := 0 |}.

Definition children (s : state) : list nat := default [] (wrapper s).

Definition set_text (message : string) (el : element) : element :=
  {| className := className el; textContent := message; style := style el |}.

Definition toast_style (type : value) : gmap string string :=
  <["padding" := "10px 14px"]>
  (<["background" :=
      if decide (type = VStr "error")
      then "linear-gradient(90deg,#ff6b6b,#ff8e8e)"
      else "linear-gradient(90deg,#00bfff,#7ad6ff)"]>
  (<["color" := "#042034"]>
  (<["borderRadius" := "10px"]>
  (<["fontWeight" := "700"]>
  (<["boxShadow" := "0 10px 30px rgba(0,0,0,0.4)"]> ∅))))).

(** [opts.id || `t_${Math.random().toString(36).slice(2,9)}`], where
    [rnd] is the token [Math.random().toString(36).slice(2,9)] drawn by
    this call. *)
Definition toast_id (opts : gmap string value) (rnd : string) : value :=
  or_else (prop opts "id") (VStr ("t_" +:+ rnd)).

(** [setTimeout(() => removeToast(id), delay)] *)
Definition setTimeout (id : value) (delay : value) (s : state) : state :=
  {| toasts := toasts s; store := store s; wrapper := wrapper s;
     timers := timers s ++ [Timer (now s + timeout_ms delay) id];
     now := now s |}.

(** The wrapper lookup and lazy creation at the head of [showToast]. *)
Definition ensure_wrapper (s : state) : state :=
  match wrapper s with
  | Some _ => s
  | None =>
      {| toasts := toasts s; store := store s; wrapper := Some [];
         timers := timers s; now := now s |}
  end.

Definition showToast (message : string) (opts : gmap string value)
    (rnd : string) (s : state) : value * state :=
  let id := toast_id opts rnd in
  let s1 := ensure_wrapper s in
  match toasts s1 !! id with
  | Some h =>
      (* a toast with the same id exists: update text *)
      (id, {| toasts := toasts s1;
              store := alter (set_text message) h (store s1);
              wrapper := wrapper s1; timers := timers s1; now := now s1 |})
  | None =>
      let el := {| className := "vk-toast"; textContent := message;
                   style := toast_style (prop opts "type") |} in
      let h := length (store s1) in
      let s2 := {| toasts := <[id := h]> (toasts s1);
                   store := store s1 ++ [el];
                   wrapper := Some (children s1 ++ [h]);
                   timers := timers s1; now := now s1 |} in
      if decide (prop opts "autoClose" ≠ VBool false)
      then (id, setTimeout id (or_else (prop opts "duration") (VNum 3000)) s2)
      else (id, s2)
  end.

Definition removeToast (id : value) (s : state) : state :=
  if negb (truthy id) then s
  else match toasts s !! id with
       | None => s
       | Some h =>
           {| toasts := delete id (toasts s);
              store := store s;
              wrapper := filter (λ x, x ≠ h) <$> wrapper s;
              timers := timers s; now := now s |}
       end.

(** *** The event loop: calls from the page and the passing of time *)

Fixpoint timer_insert (t : timer) (q : list timer) : list timer :=
  match q with
  | [] => [t]
  | u :: q' =>
      if (due t <=? due u)%Z then t :: u :: q' else u :: timer_insert t q'
  end.

(** Timers run in the order they fall due, and in the order they were set
    among those due at the same time. *)
Definition timer_order (l : list timer) : list timer :=
  foldr timer_insert [] l.

Definition fire (t : timer) (s : state) : state := removeToast (tid t) s.

Definition fire_all (l : list timer) (s : state) : state :=
  foldl (λ acc t, fire t acc) s l.

(** Let [dt] time units pass: every timer due by then runs and is gone. *)
Definition advance (dt : Z) (s : state) : state :=
  let t' := (now s + Z.max 0 dt)%Z in
  let ready := filter (λ t, (due t <= t')%Z) (timers s) in
  let later := filter (λ t, ¬ (due t <= t')%Z) (timers s) in
  let s' := fire_all (timer_order ready) s in
  {| toasts := toasts s'; store := store s'; wrapper := wrapper s';
     timers := later; now := t' |}.

Inductive event :=
| Show (message : string) (opts : gmap string value) (rnd : string)
| Remove (id : value)
| Advance (dt : Z).

Definition step (s : state) (e : event) : state :=
  match e with
  | Show message opts rnd => (showToast message opts rnd s).2
  | Remove id => removeToast id s
  | Advance dt => advance dt s
  end.

Definition run (evs : list event) (s : state) : state := foldl step s evs.

(** The text a toast with this id displays, if there is one. *)
Definition displayed (id : value) (s : state) : option string :=
  h ← toasts s !! id; textContent <$> store s !! h.

(** The registry and the wrapper agree: each registered element is a
    child of the wrapper exactly once, each child is registered under
    exactly one id, and every handle names a stored element. *)
Record wf (s : state) : Prop := Wf {
  wf_nodup : NoDup (children s);
  wf_reg_child : ∀ id h, toasts s !! id = Some h → h ∈ children s;
  wf_child_reg : ∀ h, h ∈ children s → ∃ id, toasts s !! id = Some h;
  wf_inj : ∀ id1 id2 h,
    toasts s !! id1 = Some h → toasts s !! id2 = Some h → id1 = id2;
  wf_store : ∀ h, h ∈ children s → h < length (store s)
}.

End Toast.

(** ** SMOOTH SCROLL + ACTIVE LINK HIGHLIGHT *)

Module Tracker.

(** A [.nav-link] element: its [href] attribute ([None] when absent), its
    class list and its inline [style.color]. *)
Record link := Link {
  href : option string;
  classList : gset string;
  color : string
}.

(** An IntersectionObserverEntry; [target] is [entry.target.id]. *)
Record entry := Entry {
  target : string;
  isIntersecting : bool;
  intersectionRatio : Q
}.

(** The section a link resolves to when the tracker is set up; [doc] is
    the set of ids of the elements of the document. *)
Definition section_of (doc : gset string) (l : link) : option string :=
  let h := default "" (href l) in
  if negb (startsWith "#" h) then None
  else
    let id := replace "#" "" h in
    if decide (id ≠ "" ∧ id ∈ doc) then Some id else None.

Definition sections (doc : gset string) (links : list link) : list string :=
  omap (section_of doc) links.

Definition activate (blue : string) (l : link) : link :=
  {| href := href l; classList := classList l ∪ {["active"]}; color := blue |}.

Definition deactivate (l : link) : link :=
  {| href := href l; classList := classList l ∖ {["active"]}; color := "" |}.

Definition mark (blue : string) (id : string) (l : link) : link :=
  if decide (href l = Some ("#" +:+ id)) then activate blue l
  else deactivate l.

(** The comparator [(a, b) => b.intersectionRatio - a.intersectionRatio]. *)
Definition by_ratio_desc (a b : entry) : Q :=
  (intersectionRatio b - intersectionRatio a)%Q.

(** The most visible section of one observer callback. *)
Definition visible (entries : list entry) : option entry :=
  head (JS.sort by_ratio_desc
          (filter (λ e, isIntersecting e = true) entries)).

(** The observer callback; [blue] is the computed value of
    [--electric-blue] at the time of the call. *)
Definition observe (blue : string) (entries : list entry)
    (links : list link) : list link :=
  match visible entries with
  | Some v => mark blue (target v) <$> links
  | None => links
  end.

Definition is_active (l : link) : Prop := "active" ∈ classList l.

#[global] Instance is_active_dec l : Decision (is_active l).
Proof. unfold is_active. apply _. Defined.

Definition count_active (links : list link) : nat :=
  length (filter is_active links).

(** The hrefs of the links that point into the page. *)
Definition inpage_hrefs (links : list link) : list string :=
  filter (λ h, startsWith "#" h = true) (omap href links).

(** A run of observer callbacks, each with its computed colour and its
    entries. *)
Definition observe_all (steps : list (string * list entry))
    (links : list link) : list link :=
  foldl (λ ls st, observe st.1 st.2 ls) links steps.

(** *** The observer the callback is handed to

    [buildThresholdList]: [i] starts at 0 and grows by 0.05 for as long as
    it is at most 1.  The loop stops after 20 rounds, so any [fuel] above
    that gives the same list. *)
Fixpoint thresholds_from (fuel : nat) (i : Q) : list Q :=
  match fuel with
  | O => []
  | S fuel' =>
      if Qle_bool i 1 then
        i :: thresholds_from fuel' (double_add i (double_lit (1 # 20)))
      else []
  end.

Definition buildThresholdList : list Q := thresholds_from 32 0.






End Tracker.

(** ** UTILITIES *)

Module Util.

(** The chain of five [replaceAll] calls. *)
Definition replace_entities (s : string) : string :=
  replaceAll "'" "&#39;"
    (replaceAll "034" "&quot;"
       (replaceAll ">" "&gt;"
          (replaceAll "<" "&lt;"
             (replaceAll "&" "&amp;" s)))).

Definition escapeHtml (str : value) : string :=
  if negb (truthy str) then ""
  else replace_entities (to_string str).

Definition entities : list string :=
  ["&amp;"; "&lt;"; "&gt;"; "&quot;"; "&#39;"].

End Util.

(** ** Concrete calls and pages used in the examples below *)

Module Samples.

(** [{ autoClose: false, id: 'sending' }], as the contact form passes. *)
Definition opts_sending : gmap string value :=
  {[ "autoClose" := VBool false; "id" := VStr "sending" ]}.

(** [{ type: 'error' }] and [{ type: 'success' }], likewise. *)
Definition opts_error : gmap string value := {[ "type" := VStr "error" ]}.
Definition opts_success : gmap string value := {[ "type" := VStr "success" ]}.

Definition opts_x : gmap string value := {[ "id" := VStr "x" ]}.

Definition opts_x_error_sticky : gmap string value :=
  {[ "id" := VStr "x"; "type" := VStr "error"; "autoClose" := VBool false ]}.

Definition opts_x_sticky : gmap string value :=
  {[ "id" := VStr "x"; "autoClose" := VBool false ]}.

Definition opts_x_50 : gmap string value :=
  {[ "id" := VStr "x"; "duration" := VNum 50 ]}.



(** A navigation bar with one link per section. *)
Definition nav_abc : list Tracker.link :=
  [ Tracker.Link (Some "#a") {["nav-link"; "active"]} "";
    Tracker.Link (Some "#b") {["nav-link"]} "";
    Tracker.Link (Some "#c") {["nav-link"]} "" ].

(** A navigation bar in which two links point at the same section. *)
Definition nav_twice : list Tracker.link :=
  [ Tracker.Link (Some "#about") {["nav-link"]} "";
    Tracker.Link (Some "#about") {["nav-link"]} "";
    Tracker.Link (Some "#work") {["nav-link"]} "" ].

Definition only_b : list Tracker.entry :=
  [ Tracker.Entry "a" false 0;
    Tracker.Entry "b" true (3 # 4);
    Tracker.Entry "c" false 0 ].

Definition none_visible : list Tracker.entry :=
  [ Tracker.Entry "a" false 0; Tracker.Entry "b" false 0 ].

(** [{ id: 'x', duration: 100 }] *)
Definition opts_x_100 : gmap string value :=
  {[ "id" := VStr "x"; "duration" := VNum 100 ]}.



End Samples.

(** ** Regular expressions, as far as [validateEmail] needs them *)

Module Regex.

(** A pattern over code units.  [Cls p] is a character class (or a single
    character), given by its membership test. *)
Inductive regex :=
| Empty
| Eps
| Cls (p : N → bool)
| Seq (r1 r2 : regex)
| Alt (r1 r2 : regex)
| Star (r : regex).

(** [r+] *)
Definition Plus (r : regex) : regex := Seq r (Star r).

(** A literal character *)
Definition Chr (c : N) : regex := Cls (N.eqb c).

Fixpoint nullable (r : regex) : bool :=
  match r with
  | Empty => false
  | Eps => true
  | Cls _ => false
  | Seq r1 r2 => nullable r1 && nullable r2
  | Alt r1 r2 => nullable r1 || nullable r2
  | Star _ => true
  end.

(** What is left of [r] to match after reading [c]. *)
Fixpoint deriv (c : N) (r : regex) : regex :=
  match r with
  | Empty => Empty
  | Eps => Empty
  | Cls p => if p c then Eps else Empty
  | Seq r1 r2 =>
      if nullable r1 then Alt (Seq (deriv c r1) r2) (deriv c r2)
      else Seq (deriv c r1) r2
  | Alt r1 r2 => Alt (deriv c r1) (deriv c r2)
  | Star r1 => Seq (deriv c r1) (Star r1)
  end.

(** [/^r$/.test(s)]: the whole of [s] matches [r]. *)
Fixpoint test (r : regex) (s : list N) : bool :=
  match s with
  | [] => nullable r
  | c :: s' => test (deriv c r) s'
  end.

(** Zero or more pieces, each in [L]. *)
Inductive star (L : list N → Prop) : list N → Prop :=
| star_nil : star L []
| star_app s1 s2 : L s1 → star L s2 → star L (s1 ++ s2).

(** The strings a pattern matches. *)
Fixpoint lang (r : regex) : list N → Prop :=
  match r with
  | Empty => λ _, False
  | Eps => λ s, s = []
  | Cls p => λ s, ∃ c, s = [c] ∧ p c = true
  | Seq r1 r2 => λ s, ∃ s1 s2, s = s1 ++ s2 ∧ lang r1 s1 ∧ lang r2 s2
  | Alt r1 r2 => λ s, lang r1 s ∨ lang r2 s
  | Star r1 => star (lang r1)
  end.

(** [\s]: the white space and line terminator code units. *)
Definition space (c : N) : bool :=
  ((9 <=? c) && (c <=? 13) || (c =? 32) || (c =? 160) || (c =? 5760)
   || (8192 <=? c) && (c <=? 8202) || (c =? 8232) || (c =? 8233)
   || (c =? 8239) || (c =? 8287) || (c =? 12288) || (c =? 65279))%N.

(** The code units of a string of ASCII characters. *)
Definition units (s : string) : list N :=
  N_of_ascii <$> list_ascii_of_string s.

End Regex.

(** ** CONTACT FORM HANDLING *)

Module Contact.

Import Regex.

(** [[^\s@]] *)
Definition plain (c : N) : bool := negb (space c || (c =? 64)%N).

(** [/^[^\s@]+@[^\s@]+\.[^\s@]+$/] *)
Definition email_re : regex :=
  Seq (Plus (Cls plain))
    (Seq (Chr 64)
       (Seq (Plus (Cls plain))
          (Seq (Chr 46) (Plus (Cls plain))))).

Definition validateEmail (email : list N) : bool := test email_re email.

(** The four constants the submit handler reads from the form, as
    sequences of code units: [name], [email], [subject], [textarea]. *)
Record fields := Fields {
  name : list N;
  email : list N;
  subject : list N;
  textarea : list N
}.

(** [!s] for a string [s] *)
Definition blank (s : list N) : bool :=
  match s with [] => true | _ :: _ => false end.

(** [!name || !validateEmail(email) || !subject || !textarea] *)
Definition invalid (f : fields) : bool :=
  blank (name f) || negb (validateEmail (email f)) || blank (subject f)
  || blank (textarea f).

(** The submit handler up to its [await]: the state it leaves, and whether
    it is now waiting for the simulated delay.  [rnd] is the random token
    of the [showToast] call it makes. *)
Definition submit (f : fields) (rnd : string) (s : Toast.state)
    : Toast.state * bool :=
  if invalid f
  then ((Toast.showToast "Please fill all fields correctly."
           Samples.opts_error rnd s).2, false)
  else ((Toast.showToast "Sending message..." Samples.opts_sending rnd s).2,
        true).

(** The submit handler after its [await]; [form.reset()] does not touch the
    toasts. *)
Definition submit_resume (rnd : string) (s : Toast.state) : Toast.state :=
  Toast.removeToast (VStr "sending")
    (Toast.showToast "Message sent — I will contact you soon!"
       Samples.opts_success rnd s).2.

(** The delay of [await new Promise(r => setTimeout(r, 900))]. *)
Definition send_delay : Z := 900.

End Contact.

(** ** NAV / HAMBURGER, PROJECT PREVIEWS, ESC *)

Module Page.

Import Util.

(** The [.hamburger] button: its class list and its [aria-expanded]
    attribute ([None] while the attribute is not set). *)
Record hamburger := Hamburger {
  h_classList : gset string;
  aria_expanded : option string
}.

(** What [openProjectModal] reads off a [.project-card]: the text of its
    first [h3], [p] and [.project-icon] ([None] when there is no such
    element) and the texts of its [.project-tags span] elements. *)
Record card := Card {
  h3 : option string;
  p : option string;
  tag_spans : list string;
  project_icon : option string
}.

(** [navMenu] is the class list of [.nav-menu] and [burger] the
    [.hamburger] element, [None] when the page has none; [overflow] is
    [document.body.style.overflow]; [overlays] are the [.project-overlay]
    elements of the body in document order, each with the [innerHTML] its
    modal was given; [escListeners] are the [escListener] closures
    registered on the document, named by their overlay, in the order they
    were added; [next_overlay] names the next overlay to be created. *)
Record state := State {
  navMenu : option (gset string);
  burger : option hamburger;
  overflow : string;
  overlays : list (nat * string);
  escListeners : list nat;
  next_overlay : nat
}.

(** [classList.toggle(c, force)] *)
Definition toggle_to (c : string) (force : bool) (cl : gset string)
    : gset string :=
  if force then cl ∪ {[c]} else cl ∖ {[c]}.

(** The click listener of the hamburger; [initHamburgerNav] adds it only
    when both elements exist. *)
Definition hamburger_click (s : state) : state :=
  match navMenu s, burger s with
  | Some m, Some h =>
      (* classList.toggle('active') returns whether the class is now set *)
      let active := bool_decide ("active" ∉ m) in
      {| navMenu := Some (toggle_to "active" active m);
         burger :=
           Some {| h_classList := toggle_to "is-open" active (h_classList h);
                   aria_expanded := Some (if active then "true" else "false") |};
         overflow := if active then "hidden" else "";
         overlays := overlays s; escListeners := escListeners s;
         next_overlay := next_overlay s |}
  | _, _ => s
  end.

(** The click listener [initHamburgerNav] adds to every [.nav-link]. *)
Definition nav_link_click (s : state) : state :=
  match navMenu s, burger s with
  | Some m, Some h =>
      if decide ("active" ∈ m) then
        {| navMenu := Some (m ∖ {["active"]});
           burger := Some {| h_classList := h_classList h ∖ {["is-open"]};
                             aria_expanded := Some "false" |};
           overflow := "";
           overlays := overlays s; escListeners := escListeners s;
           next_overlay := next_overlay s |}
      else s
  | _, _ => s
  end.

Definition dq : string := String "034" "".
Definition nl : string := String "010" "".

(** [arr.join('')] *)
Definition join (l : list string) : string := foldr String.append "" l.

(** One tag of the preview: the template inside [tags.map]. *)
Definition span_html (t : string) : string :=
  "<span style=" +:+ dq +:+ "padding:6px 10px;border-radius:8px;background:rgba(255,255,255,0.03);border:1px solid rgba(255,255,255,0.03);color:var(--soft-purple);font-weight:600" +:+ dq +:+ ">" +:+ escapeHtml (VStr t) +:+ "</span>".

(** The template literal assigned to [modal.innerHTML]. *)
Definition modal_html (icon title description : string)
    (tags : list string) : string :=
  nl +:+
  "    <div style=" +:+ dq +:+ "display:flex;justify-content:space-between;align-items:center;gap:10px;margin-bottom:10px" +:+ dq +:+ ">" +:+ nl +:+
  "      <div style=" +:+ dq +:+ "display:flex;align-items:center;gap:14px;" +:+ dq +:+ ">" +:+ nl +:+
  "        <div style=" +:+ dq +:+ "font-size:2.5rem" +:+ dq +:+ ">" +:+ escapeHtml (VStr icon) +:+ "</div>" +:+ nl +:+
  "        <div>" +:+ nl +:+
  "          <h2 style=" +:+ dq +:+ "margin:0;font-size:1.5rem" +:+ dq +:+ ">" +:+ escapeHtml (VStr title) +:+ "</h2>" +:+ nl +:+
  "          <div style=" +:+ dq +:+ "color:var(--text-secondary);font-size:0.95rem;margin-top:6px" +:+ dq +:+ ">" +:+ escapeHtml (VStr description) +:+ "</div>" +:+ nl +:+
  "        </div>" +:+ nl +:+
  "      </div>" +:+ nl +:+
  "      <button aria-label=" +:+ dq +:+ "Close preview" +:+ dq +:+ " class=" +:+ dq +:+ "modal-close" +:+ dq +:+ " style=" +:+ dq +:+ "background:transparent;border:0;color:var(--text-secondary);font-size:1.2rem;cursor:pointer" +:+ dq +:+ ">✕</button>" +:+ nl +:+
  "    </div>" +:+ nl +:+
  "    <div style=" +:+ dq +:+ "margin-top:8px;display:flex;flex-wrap:wrap;gap:8px" +:+ dq +:+ ">" +:+ nl +:+
  "      " +:+ join (span_html <$> tags) +:+ nl +:+
  "    </div>" +:+ nl +:+
  "    <div style=" +:+ dq +:+ "margin-top:18px;color:var(--text-secondary);line-height:1.7" +:+ dq +:+ ">" +:+ nl +:+
  "      " +:+ escapeHtml (VStr description) +:+ nl +:+
  "    </div>" +:+ nl +:+
  "    <div style=" +:+ dq +:+ "margin-top:20px;display:flex;gap:12px;flex-wrap:wrap" +:+ dq +:+ ">" +:+ nl +:+
  "      <a class=" +:+ dq +:+ "modal-action" +:+ dq +:+ " href=" +:+ dq +:+ "#" +:+ dq +:+ " style=" +:+ dq +:+ "background:linear-gradient(135deg,var(--electric-blue),var(--cerulean));color:white;padding:10px 14px;border-radius:10px;text-decoration:none;font-weight:700" +:+ dq +:+ ">Open Demo</a>" +:+ nl +:+
  "      <button class=" +:+ dq +:+ "modal-action-close" +:+ dq +:+ " style=" +:+ dq +:+ "background:rgba(255,255,255,0.04);color:var(--text-primary);padding:10px 14px;border-radius:10px;border:1px solid rgba(255,255,255,0.04)" +:+ dq +:+ ">Close</button>" +:+ nl +:+
  "    </div>" +:+ nl +:+
  "  ".

(** [x?.textContent || d] *)
Definition text_or (x : option string) (d : string) : string :=
  match x with
  | Some (String c t) => String c t
  | _ => d
  end.

(** [openProjectModal(card)]: the overlay is appended to the body and its
    [escListener] is added to the document. *)
Definition openProjectModal (c : card) (s : state) : state :=
  let title := text_or (h3 c) "Project" in
  let description := text_or (p c) "" in
  let tags := (λ t, text_or (Some t) "") <$> tag_spans c in
  let icon := text_or (project_icon c) "" in
  let k := next_overlay s in
  {| navMenu := navMenu s; burger := burger s; overflow := overflow s;
     overlays := overlays s ++ [(k, modal_html icon title description tags)];
     escListeners := escListeners s ++ [k];
     next_overlay := S k |}.

(** The click listener of a [.project-link]; [c] is
    [link.closest('.project-card')]. *)
Definition project_link_click (c : option card) (s : state) : state :=
  match c with
  | None => s
  | Some c => openProjectModal c s
  end.

(** [closeModal] of the modal with overlay [k]. *)
Definition closeModal (k : nat) (s : state) : state :=
  {| navMenu := navMenu s; burger := burger s; overflow := overflow s;
     overlays := filter (λ o, o.1 ≠ k) (overlays s);
     escListeners := filter (λ j, j ≠ k) (escListeners s);
     next_overlay := next_overlay s |}.

(** [escListener] of the modal with overlay [k]. *)
Definition escListener (k : nat) (key : string) (s : state) : state :=
  if decide (key = "Escape") then closeModal k s else s.

(** The keydown listener of [initAccessibilityShortcuts]. *)
Definition shortcuts_keydown (key : string) (s : state) : state :=
  if decide (key = "Escape") then
    let s1 :=
      match navMenu s with
      | Some m =>
          if decide ("active" ∈ m) then
            {| navMenu := Some (m ∖ {["active"]});
               burger :=
                 (λ h, {| h_classList := h_classList h ∖ {["is-open"]};
                          aria_expanded := Some "false" |}) <$> burger s;
               overflow := "";
               overlays := overlays s; escListeners := escListeners s;
               next_overlay := next_overlay s |}
          else s
      | None => s
      end in
    (* document.querySelector('.project-overlay'): the first one *)
    {| navMenu := navMenu s1; burger := burger s1; overflow := overflow s1;
       overlays := tail (overlays s1);
       escListeners := escListeners s1;
       next_overlay := next_overlay s1 |}
  else s.

(** A keydown event on the document: the listener of
    [initAccessibilityShortcuts] runs first, then the [escListener]s that
    were registered when the event was dispatched, in order. *)
Definition keydown (key : string) (s : state) : state :=
  foldl (λ acc k, escListener k key acc) (shortcuts_keydown key s)
    (escListeners s).

Inductive event :=
| HamburgerClick
| NavLinkClick
| ProjectLinkClick (c : option card)
| CloseClick (k : nat)
| KeyDown (key : string).

(** [CloseClick k] is a click on a close button of modal [k] or on its
    backdrop; such a click reaches only a modal that is in the document. *)
Definition step (s : state) (e : event) : state :=
  match e with
  | HamburgerClick => hamburger_click s
  | NavLinkClick => nav_link_click s
  | ProjectLinkClick c => project_link_click c s
  | CloseClick k => if decide (k ∈ (overlays s).*1) then closeModal k s else s
  | KeyDown key => keydown key s
  end.

Definition run (evs : list event) (s : state) : state := foldl step s evs.

(** The page as loaded: no preview is open. *)
Definition loaded (menu : option (gset string)) (b : option hamburger)
    (ov : string) : state :=
  {| navMenu := menu; burger := b; overflow := ov;
     overlays := []; escListeners := []; next_overlay := 0 |}.

(** [closeModal] of several modals in turn. *)
Definition close_all (ks : list nat) (s : state) : state :=
  foldl (λ acc k, closeModal k acc) s ks.

(** Each open preview has its listener, no other listener is registered,
    and the names in use lie below the next one. *)
Definition booked (s : state) : Prop :=
  (overlays s).*1 = escListeners s ∧
  NoDup (escListeners s) ∧
  ∀ k, k ∈ escListeners s → k < next_overlay s.

(** The menu, the hamburger and the body agree on whether the menu is
    open. *)
Definition in_sync (s : state) : Prop :=
  ∀ m h, navMenu s = Some m → burger s = Some h →
    ("active" ∈ m ↔ "is-open" ∈ h_classList h) ∧
    ("active" ∈ m ↔ aria_expanded h = Some "true") ∧
    ("active" ∈ m ↔ overflow s = "hidden").

Fixpoint count_char (c : ascii) (s : string) : nat :=
  match s with
  | EmptyString => 0
  | String x s' => (if decide (x = c) then 1 else 0) + count_char c s'
  end.

End Page.

(** ** Further concrete inputs used in examples *)

Module Cases.

(** A form filled in correctly, and one with an address without [@]. *)
Definition fields_ok : Contact.fields :=
  Contact.Fields (Regex.units "Ann") (Regex.units "ann@example.org")
    (Regex.units "Hello") (Regex.units "A question about your work").

Definition fields_bad_email : Contact.fields :=
  Contact.Fields (Regex.units "Ann") (Regex.units "ann.example.org")
    (Regex.units "Hello") (Regex.units "A question about your work").

(** Two sections equally visible, delivered a before b. *)
Definition tie_a_b : list Tracker.entry :=
  [ Tracker.Entry "c" true (1 # 4);
    Tracker.Entry "a" true (1 # 2);
    Tracker.Entry "b" true (1 # 2) ].

(** A page with a closed menu whose hamburger has no [aria-expanded] yet. *)
Definition page_closed : Page.state :=
  Page.loaded (Some {["nav-menu"]})
    (Some (Page.Hamburger {["hamburger"]} None)) "".

(** The same page with the menu open. *)
Definition page_open : Page.state :=
  Page.loaded (Some {["nav-menu"; "active"]})
    (Some (Page.Hamburger {["hamburger"; "is-open"]} (Some "true"))) "hidden".

(** A project card whose texts contain markup characters. *)
Definition card_markup : Page.card :=
  Page.Card (Some "Shop <beta>") (Some "Fast & 'simple'")
    ["js"; "<css>"] None.

End Cases.

(** * Properties *)

Import Toast Tracker Util.

(** ** The host's conversions, on examples *)

(** A delay given as text is read as a number, white space around it and
    the spellings of numeric literals included; text that is no number,
    and a negative delay, count as 0; a delay of 2^31 wraps around to a
    negative one. *)
Example delays_are_read_as_numbers :
  timeout_ms (VStr "1e2") = 100%Z ∧
  timeout_ms (VStr " 50 ") = 50%Z ∧
  timeout_ms (VStr "0x10") = 16%Z ∧
  timeout_ms (VStr "12.9") = 12%Z ∧
  timeout_ms (VStr "+7") = 7%Z ∧
  timeout_ms (VStr ".5e1") = 5%Z ∧
  timeout_ms (VStr "12px") = 0%Z ∧
  timeout_ms (VStr "-5") = 0%Z ∧
  timeout_ms (VStr "Infinity") = 0%Z ∧
  timeout_ms (VStr "4294967297") = 1%Z ∧
  timeout_ms (VBool true) = 1%Z ∧
  timeout_ms (VNum 3000) = 3000%Z ∧
  timeout_ms (VNum (2 ^ 31)) = 0%Z.
Proof. vm_compute. done. Qed.

(** A number prints with the fewest digits that read back as the same
    double, in exponent form from 10^21 on. *)
Example numbers_print_shortest :
  to_string (VNum 3000) = "3000" ∧
  to_string (VNum (-12)) = "-12" ∧
  to_string (VNum 0) = "0" ∧
  to_string (VNum (2 ^ 53)) = "9007199254740992" ∧
  to_string (VNum (2 ^ 66)) = "73786976294838210000" ∧
  to_string (VNum (10 ^ 21)) = "1e+21" ∧
  to_string (VNum (2 ^ 70)) = "1.1805916207174113e+21".
Proof. vm_compute. done. Qed.

(** The loop of [buildThresholdList] ends by itself: 20 thresholds, from 0
    to just above 0.95; the sum after that is above 1. *)
Lemma buildThresholdList_fuel k :
  thresholds_from (21 + k) 0 = buildThresholdList.
Proof. vm_compute. reflexivity. Qed.

Example buildThresholdList_values :
  length buildThresholdList = 20 ∧
  head buildThresholdList = Some 0%Q ∧
  Qred <$> buildThresholdList !! 1 =
    Some (3602879701896397 # 72057594037927936) ∧
  Qred <$> last buildThresholdList =
    Some (8556839292003945 # 9007199254740992) ∧
  Forall (λ t, Qle_bool t (951 # 1000) = true) buildThresholdList.
Proof. vm_compute. split_and!; try done. repeat constructor. Qed.

(** ** The toast registry and the wrapper stay consistent *)

Section ToastInvariant.

Implicit Types (s : state) (id k : value) (h : nat) (t : timer).

Lemma wf_fields s s' :
  toasts s' = toasts s → store s' = store s → children s' = children s →
  wf s → wf s'.
Proof.
  intros Ht Hs Hw [H1 H2 H3 H4 H5].
  split; rewrite ?Ht, ?Hs, ?Hw; assumption.
Qed.

Lemma wf_init : wf init.
Proof.
  split; unfold children; simpl.
  - constructor.
  - intros id h H. by rewrite lookup_empty in H.
  - intros h H. by apply elem_of_nil in H.
  - intros id1 id2 h H. by rewrite lookup_empty in H.
  - intros h H. by apply elem_of_nil in H.
Qed.

Lemma truthy_toast_id opts rnd : truthy (toast_id opts rnd) = true.
Proof.
  unfold toast_id, or_else.
  destruct (truthy (prop opts "id")) eqn:E; [exact E | reflexivity].
Qed.

Lemma children_ensure_wrapper s : children (ensure_wrapper s) = children s.
Proof.
  unfold ensure_wrapper, children.
  destruct (wrapper s) eqn:E; simpl; by rewrite ?E.
Qed.

Lemma ensure_wrapper_id s h : wf s → h ∈ children s → ensure_wrapper s = s.
Proof.
  intros _ Hh. unfold ensure_wrapper, children in *.
  destruct (wrapper s) eqn:E; [done | by apply elem_of_nil in Hh].
Qed.

(** *** removeToast *)

Lemma removeToast_absent id s : toasts s !! id = None → removeToast id s = s.
Proof.
  intros H. unfold removeToast. rewrite H. by destruct (negb (truthy id)).
Qed.

Lemma removeToast_falsy id s : truthy id = false → removeToast id s = s.
Proof. intros H. unfold removeToast. by rewrite H. Qed.

Lemma removeToast_lookup k id s :
  toasts (removeToast k s) !! id =
    if decide (k = id ∧ truthy k = true) then None else toasts s !! id.
Proof.
  unfold removeToast.
  destruct (truthy k) eqn:Ek; simpl.
  - destruct (toasts s !! k) as [h|] eqn:E; simpl.
    + rewrite lookup_delete.
      destruct (decide (k = id)) as [-> | Hne].
      * rewrite !decide_True; done.
      * rewrite decide_False by tauto. done.
    + case_decide as Hd; [destruct Hd; by subst | done].
  - case_decide as Hd; [destruct Hd; discriminate | done].
Qed.

Lemma removeToast_timers k s : timers (removeToast k s) = timers s.
Proof.
  unfold removeToast. destruct (negb (truthy k)); [done |].
  by destruct (toasts s !! k).
Qed.

Lemma removeToast_store k s : store (removeToast k s) = store s.
Proof.
  unfold removeToast. destruct (negb (truthy k)); [done |].
  by destruct (toasts s !! k).
Qed.


Lemma removeToast_children k s h :
  truthy k = true → toasts s !! k = Some h →
  children (removeToast k s) = filter (λ x, x ≠ h) (children s).
Proof.
  intros Hk E. unfold removeToast, children. rewrite Hk, E. simpl.
  by destruct (wrapper s).
Qed.

Lemma wf_removeToast k s : wf s → wf (removeToast k s).
Proof.
  intros Hwf.
  destruct (truthy k) eqn:Hk; [| by rewrite removeToast_falsy].
  destruct (toasts s !! k) as [h0|] eqn:E; [| by rewrite removeToast_absent].
  destruct Hwf as [H1 H2 H3 H4 H5].
  split; rewrite ?(removeToast_children _ _ _ Hk E), ?removeToast_store.
  - by apply NoDup_filter.
  - intros id h. rewrite removeToast_lookup.
    case_decide; [done |]. intros Hid.
    apply list_elem_of_filter. split; [| by eapply H2].
    intros ->. assert (k = id) by (by eapply H4). naive_solver.
  - intros h [Hne Hh]%list_elem_of_filter.
    destruct (H3 _ Hh) as [id Hid]. exists id.
    rewrite removeToast_lookup. case_decide as Hd; [| done].
    destruct Hd as [-> _]. congruence.
  - intros id1 id2 h. rewrite !removeToast_lookup.
    repeat case_decide; try done. apply H4.
  - intros h [_ Hh]%list_elem_of_filter. by apply H5.
Qed.

(** *** showToast *)

Lemma showToast_update message opts rnd s h :
  wf s → toasts s !! toast_id opts rnd = Some h →
  showToast message opts rnd s =
    (toast_id opts rnd,
     {| toasts := toasts s;
        store := alter (set_text message) h (store s);
        wrapper := wrapper s; timers := timers s; now := now s |}).
Proof.
  intros Hwf E. unfold showToast.
  rewrite (ensure_wrapper_id s h Hwf) by (by eapply wf_reg_child).
  by rewrite E.
Qed.

Lemma showToast_create message opts rnd s :
  toasts s !! toast_id opts rnd = None →
  let id := toast_id opts rnd in
  let s2 :=
    {| toasts := <[id := length (store s)]> (toasts s);
       store := store s ++ [Element "vk-toast" message
                              (toast_style (prop opts "type"))];
       wrapper := Some (children s ++ [length (store s)]);
       timers := timers s; now := now s |} in
  showToast message opts rnd s =
    (id, if decide (prop opts "autoClose" ≠ VBool false)
         then setTimeout id (or_else (prop opts "duration") (VNum 3000)) s2
         else s2).
Proof.
  intros E. unfold showToast.
  assert (toasts (ensure_wrapper s) = toasts s) as Ht
    by (unfold ensure_wrapper; by destruct (wrapper s)).
  assert (store (ensure_wrapper s) = store s) as Hs
    by (unfold ensure_wrapper; by destruct (wrapper s)).
  assert (timers (ensure_wrapper s) = timers s) as Hti
    by (unfold ensure_wrapper; by destruct (wrapper s)).
  assert (now (ensure_wrapper s) = now s) as Hn
    by (unfold ensure_wrapper; by destruct (wrapper s)).
  rewrite Ht, E, Hs, Hti, Hn, children_ensure_wrapper. simpl.
  by case_decide.
Qed.


Lemma wf_showToast message opts rnd s :
  wf s → wf (showToast message opts rnd s).2.
Proof.
  intros Hwf.
  destruct (toasts s !! toast_id opts rnd) as [h|] eqn:E.
  - rewrite (showToast_update _ _ _ _ _ Hwf E). simpl.
    destruct Hwf as [H1 H2 H3 H4 H5].
    split; unfold children in *; simpl; try assumption.
    intros h' Hh'. rewrite length_alter. by apply H5.
  - rewrite (showToast_create _ _ _ _ E). simpl.
    set (s2 := State _ _ _ _ _).
    assert (wf s2) as Hs2.
    { destruct Hwf as [H1 H2 H3 H4 H5].
      assert (length (store s) ∉ children s) as Hfresh
        by (intros Hin; apply H5 in Hin; lia).
      assert (children s2 = children s ++ [length (store s)]) as Hc by done.
      split; rewrite ?Hc; simpl.
      - apply NoDup_app. split_and!; [done | | apply NoDup_singleton].
        intros x Hx ->%list_elem_of_singleton. done.
      - intros id h. rewrite lookup_insert. case_decide.
        + intros [= <-]. set_solver.
        + intros Hid. apply H2 in Hid. set_solver.
      - intros h [Hh | ->%list_elem_of_singleton]%elem_of_app.
        + destruct (H3 _ Hh) as [id Hid]. exists id.
          rewrite lookup_insert_ne; [done | congruence].
        + eexists. apply lookup_insert_eq.
      - intros id1 id2 h. rewrite !lookup_insert.
        repeat case_decide; try congruence.
        + intros [= <-] Hid. by apply H2 in Hid.
        + intros Hid [= <-]. by apply H2 in Hid.
        + apply H4.
      - intros h. rewrite length_app. simpl.
        intros [Hh | ->%list_elem_of_singleton]%elem_of_app; [| lia].
        apply H5 in Hh. lia. }
    case_decide; [| done].
    by eapply wf_fields; [.. | exact Hs2].
Qed.

(** *** Timers *)

Lemma elem_of_timer_insert t u q : t ∈ timer_insert u q ↔ t = u ∨ t ∈ q.
Proof.
  induction q as [| v q IH]; simpl.
  - rewrite list_elem_of_singleton, elem_of_nil. tauto.
  - destruct (due u <=? due v)%Z.
    + rewrite !elem_of_cons. tauto.
    + rewrite !elem_of_cons, IH. tauto.
Qed.

Lemma elem_of_timer_order t l : t ∈ timer_order l ↔ t ∈ l.
Proof.
  induction l as [| u l IH]; simpl; [done |].
  rewrite elem_of_timer_insert, elem_of_cons, IH. tauto.
Qed.

Lemma fire_all_cons t l s : fire_all (t :: l) s = fire_all l (fire t s).
Proof. done. Qed.

Lemma wf_fire_all l s : wf s → wf (fire_all l s).
Proof.
  revert s. induction l as [| t l IH]; intros s Hwf; [done |].
  rewrite fire_all_cons. apply IH. by apply wf_removeToast.
Qed.

Lemma fire_all_absent l s id :
  toasts s !! id = None → toasts (fire_all l s) !! id = None.
Proof.
  revert s. induction l as [| t l IH]; intros s H; [done |].
  rewrite fire_all_cons. apply IH.
  unfold fire. rewrite removeToast_lookup. by case_decide.
Qed.

Lemma fire_all_keep l s id :
  (∀ t, t ∈ l → tid t ≠ id) →
  toasts (fire_all l s) !! id = toasts s !! id.
Proof.
  revert s. induction l as [| t l IH]; intros s H; [done |].
  rewrite fire_all_cons, IH.
  - unfold fire. rewrite removeToast_lookup.
    case_decide as Hd; [| done].
    destruct Hd as [Hd _]. exfalso. eapply H; [| exact Hd]. apply elem_of_cons; auto.
  - intros u Hu. apply H. apply elem_of_cons; auto.
Qed.

Lemma fire_all_gone l s id t :
  truthy id = true → t ∈ l → tid t = id →
  toasts (fire_all l s) !! id = None.
Proof.
  intros Hid. revert s.
  induction l as [| u l IH]; intros s Hin Ht; [by apply elem_of_nil in Hin |].
  rewrite fire_all_cons. apply elem_of_cons in Hin as [<- | Hin].
  - apply fire_all_absent. unfold fire. rewrite removeToast_lookup.
    rewrite decide_True; [done |]. by rewrite Ht.
  - by apply IH.
Qed.

Lemma advance_toasts dt s :
  toasts (advance dt s) =
    toasts (fire_all (timer_order
      (filter (λ t, (due t <= now s + Z.max 0 dt)%Z) (timers s))) s).
Proof. done. Qed.

Lemma wf_advance dt s : wf s → wf (advance dt s).
Proof.
  intros Hwf.
  apply wf_fields with
    (fire_all (timer_order
      (filter (λ t, (due t <= now s + Z.max 0 dt)%Z) (timers s))) s);
    [done .. |].
  by apply wf_fire_all.
Qed.

Lemma advance_absent dt s id :
  toasts s !! id = None → toasts (advance dt s) !! id = None.
Proof. intros H. rewrite advance_toasts. by apply fire_all_absent. Qed.

Lemma advance_keep dt s id :
  (∀ t, t ∈ timers s → (due t <= now s + Z.max 0 dt)%Z → tid t ≠ id) →
  toasts (advance dt s) !! id = toasts s !! id.
Proof.
  intros H. rewrite advance_toasts. apply fire_all_keep.
  intros t [Hdue Hin]%elem_of_timer_order%list_elem_of_filter. by apply H.
Qed.

Lemma advance_gone dt s id t :
  truthy id = true → t ∈ timers s → tid t = id →
  (due t <= now s + Z.max 0 dt)%Z →
  toasts (advance dt s) !! id = None.
Proof.
  intros Hid Hin Ht Hdue. rewrite advance_toasts.
  apply fire_all_gone with t; [done | | done].
  apply elem_of_timer_order, list_elem_of_filter. done.
Qed.

Lemma advance_timers dt s t : t ∈ timers (advance dt s) → t ∈ timers s.
Proof. simpl. by intros [_ H]%list_elem_of_filter. Qed.

Lemma wf_step s e : wf s → wf (step s e).
Proof.
  destruct e; simpl;
    auto using wf_showToast, wf_removeToast, wf_advance.
Qed.

Lemma run_cons e evs s : run (e :: evs) s = run evs (step s e).
Proof. done. Qed.

Lemma wf_run evs s : wf s → wf (run evs s).
Proof.
  revert s. induction evs as [| e evs IH]; intros s Hwf; simpl; [done |].
  apply IH. by apply wf_step.
Qed.

Lemma showToast_toasts message opts rnd s :
  toasts (showToast message opts rnd s).2 =
    match toasts s !! toast_id opts rnd with
    | Some _ => toasts s
    | None => <[toast_id opts rnd := length (store s)]> (toasts s)
    end.
Proof.
  unfold showToast, ensure_wrapper.
  destruct (wrapper s) eqn:W; simpl;
    destruct (toasts s !! toast_id opts rnd) eqn:E; simpl;
    try case_decide; done.
Qed.

(** Every state the page can reach from the empty one is consistent. *)
Lemma wf_reachable evs : wf (run evs init).
Proof. apply wf_run, wf_init. Qed.

Lemma showToast_timers message opts rnd s :
  timers (showToast message opts rnd s).2 =
    match toasts s !! toast_id opts rnd with
    | Some _ => timers s
    | None =>
        if decide (prop opts "autoClose" ≠ VBool false)
        then timers s ++
               [Timer (now s + timeout_ms
                         (or_else (prop opts "duration") (VNum 3000)))
                  (toast_id opts rnd)]
        else timers s
    end.
Proof.
  unfold showToast, ensure_wrapper.
  destruct (wrapper s) eqn:W; simpl;
    destruct (toasts s !! toast_id opts rnd) eqn:E; simpl;
    try case_decide; done.
Qed.

Lemma showToast_timers_elem message opts rnd s t :
  t ∈ timers (showToast message opts rnd s).2 →
  t ∈ timers s ∨
  (tid t = toast_id opts rnd ∧ toasts s !! toast_id opts rnd = None).
Proof.
  rewrite showToast_timers.
  destruct (toasts s !! toast_id opts rnd) eqn:E; [auto |].
  case_decide; [| auto].
  intros [Hin | ->%list_elem_of_singleton]%elem_of_app; auto.
Qed.

Lemma showToast_lookup_other message opts rnd s id :
  id ≠ toast_id opts rnd →
  toasts (showToast message opts rnd s).2 !! id = toasts s !! id.
Proof.
  intros Hne. rewrite showToast_toasts.
  destruct (toasts s !! toast_id opts rnd) eqn:E; [done |].
  by rewrite lookup_insert_ne.
Qed.

Lemma showToast_lookup_same message opts rnd s h :
  toasts s !! toast_id opts rnd = Some h →
  toasts (showToast message opts rnd s).2 !! toast_id opts rnd = Some h.
Proof. intros E. rewrite showToast_toasts. by rewrite E. Qed.

End ToastInvariant.

(** ** Showing a toast under an id that is already shown *)

Section ToastUpdate.

Implicit Types (s : state) (id : value) (h : nat).

Lemma filter_eq_NoDup (l : list nat) (x : nat) :
  NoDup l → x ∈ l → length (filter (λ y, y = x) l) = 1.
Proof.
  induction 1 as [| y l Hy Hnd IH]; intros Hin;
    [by apply elem_of_nil in Hin |].
  rewrite filter_cons. case_decide as Hd.
  - subst y. simpl. f_equal.
    assert (filter (λ y, y = x) l = []) as ->; [| done].
    apply elem_of_nil_inv. intros z [-> Hz]%list_elem_of_filter. done.
  - apply elem_of_cons in Hin as [-> | Hin]; [done |]. by apply IH.
Qed.

Lemma showToast_update_facts s message opts rnd h :
  wf s → toasts s !! toast_id opts rnd = Some h →
  let id := toast_id opts rnd in
  let r := showToast message opts rnd s in
  r.1 = id ∧
  toasts r.2 = toasts s ∧
  store r.2 = alter (set_text message) h (store s) ∧
  wrapper r.2 = wrapper s ∧
  timers r.2 = timers s ∧
  now r.2 = now s ∧
  displayed id r.2 = Some message ∧
  length (filter (λ x, x = h) (children r.2)) = 1.
Proof.
  intros Hwf E id r. subst r id.
  rewrite (showToast_update _ _ _ _ _ Hwf E). simpl.
  split_and!; try done.
  - unfold displayed. simpl. rewrite E. simpl.
    rewrite list_lookup_alter_eq.
    destruct (lookup_lt_is_Some_2 (store s) h) as [el Hel].
    { eapply wf_store; [done |]. by eapply wf_reg_child. }
    by rewrite Hel.
  - unfold children. simpl. fold (children s).
    apply filter_eq_NoDup; [by apply wf_nodup |].
    by eapply (wf_reg_child s).
Qed.

End ToastUpdate.

(** C1: a [showToast] whose id names an existing entry replaces that entry's
    text in place and returns the same id; it creates no element (the store,
    the wrapper's children and the registry keep their size and content) and
    sets no timer.  After two successive calls with one id there is exactly
    one entry for the id, it occurs once among the wrapper's children, and
    it displays the second message. *)
Theorem showToast_same_id_updates_in_place
    (s : state) (m1 : string) (o1 : gmap string value) (r1 : string) :
  wf s →
  let id := toast_id o1 r1 in
  let s1 := (showToast m1 o1 r1 s).2 in
  (∀ h, toasts s !! id = Some h →
     (showToast m1 o1 r1 s).1 = id ∧
     toasts s1 = toasts s ∧
     store s1 = alter (set_text m1) h (store s) ∧
     length (store s1) = length (store s) ∧
     wrapper s1 = wrapper s ∧
     timers s1 = timers s ∧
     displayed id s1 = Some m1) ∧
  (∀ m2 o2 r2, toast_id o2 r2 = id →
     let s2 := (showToast m2 o2 r2 s1).2 in
     (showToast m2 o2 r2 s1).1 = id ∧
     ∃ h, toasts s2 !! id = Some h ∧
          length (filter (λ x, x = h) (children s2)) = 1 ∧
          displayed id s2 = Some m2 ∧
          toasts s2 = toasts s1 ∧
          children s2 = children s1 ∧
          length (store s2) = length (store s1) ∧
          timers s2 = timers s1).
Proof.
  intros Hwf id s1. split.
  - intros h E.
    destruct (showToast_update_facts s m1 o1 r1 h Hwf E)
      as (F1 & F2 & F3 & F4 & F5 & _ & F7 & _).
    split_and!; try done.
    subst s1. rewrite F3. apply length_alter.
  - intros m2 o2 r2 Hid s2.
    assert (wf s1) as Hwf1 by (by apply wf_showToast).
    assert (∃ h, toasts s1 !! toast_id o2 r2 = Some h) as [h E].
    { rewrite Hid. subst s1. rewrite showToast_toasts. fold id.
      destruct (toasts s !! id) as [h|] eqn:E; [by exists h |].
      eexists. apply lookup_insert_eq. }
    destruct (showToast_update_facts s1 m2 o2 r2 h Hwf1 E)
      as (F1 & F2 & F3 & F4 & F5 & _ & F7 & F8).
    rewrite Hid in F1, F7, E.
    split; [done |]. exists h. subst s2.
    split_and!; try done.
    + by rewrite F2.
    + unfold children. by rewrite F4.
    + rewrite F3. apply length_alter.
Qed.

(** C10: an update through an existing id depends on the options only
    through the id they resolve to: whatever [type], [autoClose] or
    [duration] the updating call passes, the result is the same.  The
    element keeps its class and style, every other element is untouched,
    the pending timers are the same, and a timer already set for the id
    still removes the entry when it falls due. *)
Theorem showToast_update_ignores_options
    (s : state) (message : string) (opts opts' : gmap string value)
    (rnd rnd' : string) (h : nat) :
  wf s →
  toasts s !! toast_id opts rnd = Some h →
  toast_id opts' rnd' = toast_id opts rnd →
  let id := toast_id opts rnd in
  let s' := (showToast message opts rnd s).2 in
  showToast message opts' rnd' s = showToast message opts rnd s ∧
  style <$> store s' !! h = style <$> store s !! h ∧
  className <$> store s' !! h = className <$> store s !! h ∧
  (∀ h', h' ≠ h → store s' !! h' = store s !! h') ∧
  timers s' = timers s ∧
  (∀ t dt, t ∈ timers s → tid t = id →
     (due t <= now s + Z.max 0 dt)%Z →
     toasts (advance dt s') !! id = None).
Proof.
  intros Hwf E Hid id s'.
  destruct (showToast_update_facts s message opts rnd h Hwf E)
    as (F1 & F2 & F3 & F4 & F5 & F6 & _ & _).
  fold s' in F2, F3, F4, F5, F6.
  split_and!.
  - rewrite (showToast_update _ opts rnd s h Hwf E).
    rewrite <- Hid in E.
    rewrite (showToast_update _ opts' rnd' s h Hwf E). by rewrite Hid.
  - rewrite F3, list_lookup_alter_eq. by destruct (store s !! h).
  - rewrite F3, list_lookup_alter_eq. by destruct (store s !! h).
  - intros h' Hne. rewrite F3. by apply list_lookup_alter_ne.
  - done.
  - intros t dt Hin Ht Hdue.
    apply advance_gone with t; rewrite ?F5, ?F6; try done.
    apply truthy_toast_id.
Qed.

(** C7: [removeToast] is idempotent, and on an id that is not in the
    registry it changes nothing: the state it returns (registry, wrapper
    children, store, timers) is the state it was given.  The function is
    total, so there is no exceptional outcome. *)
Theorem removeToast_idempotent_and_noop_when_absent (id : value) (s : state) :
  toasts s !! id = None →
  removeToast id s = s ∧
  size (toasts (removeToast id s)) = size (toasts s) ∧
  children (removeToast id s) = children s ∧
  ∀ k s0, removeToast k (removeToast k s0) = removeToast k s0.
Proof.
  intros H. rewrite (removeToast_absent _ _ H). split_and!; try done.
  intros k s0. destruct (truthy k) eqn:Hk.
  - apply removeToast_absent. rewrite removeToast_lookup.
    by rewrite decide_True.
  - by rewrite !removeToast_falsy.
Qed.

(** ** Auto-close timers *)

Section ToastTimers.

Implicit Types (s : state) (id k : value) (h : nat) (t : timer).

Lemma showToast_now message opts rnd s :
  now (showToast message opts rnd s).2 = now s.
Proof.
  unfold showToast, ensure_wrapper.
  destruct (wrapper s) eqn:W; simpl;
    destruct (toasts s !! toast_id opts rnd) eqn:E; simpl;
    try case_decide; done.
Qed.


Lemma fire_all_lookup_Some l s k h :
  toasts (fire_all l s) !! k = Some h → toasts s !! k = Some h.
Proof.
  revert s. induction l as [| t l IH]; intros s; [done |].
  rewrite fire_all_cons. intros H%IH. revert H.
  unfold fire. rewrite removeToast_lookup. by case_decide.
Qed.

Lemma advance_lookup_Some dt s k h :
  toasts (advance dt s) !! k = Some h → toasts s !! k = Some h.
Proof. rewrite advance_toasts. apply fire_all_lookup_Some. Qed.



End ToastTimers.


(** C2, as the code has it: a timer only re-checks that its id is in the
    registry.  After [removeToast id], and for as long as no later
    [showToast] resolves to the same id, the registry has no entry for the
    id and a timer for it changes nothing when it fires (registry, wrapper
    children, store and the other timers are as before). *)
Theorem stale_timer_is_noop_unless_id_reused
    (s : state) (id : value) (evs : list event) (t : timer) :
  (∀ message opts rnd, Show message opts rnd ∈ evs → toast_id opts rnd ≠ id) →
  tid t = id →
  let s' := run evs (removeToast id s) in
  fire t s' = s'.
Proof.
  intros Hshow Ht s'. unfold fire. rewrite Ht.
  destruct (truthy id) eqn:Hid; [| by apply removeToast_falsy].
  apply removeToast_absent. subst s'.
  assert (toasts (removeToast id s) !! id = None) as H0.
  { rewrite removeToast_lookup. by rewrite decide_True. }
  revert H0 Hshow. generalize (removeToast id s). clear s.
  induction evs as [| e evs IH]; intros s H0 Hshow; [done |].
  rewrite run_cons. apply IH.
  - destruct e as [m o r | k | dt]; unfold step.
    + rewrite showToast_lookup_other; [done |].
      intros Heq. apply (Hshow m o r); [| by symmetry].
      apply elem_of_cons. by left.
    + rewrite removeToast_lookup. by case_decide.
    + by apply advance_absent.
  - intros m o r Hin. apply (Hshow m). apply elem_of_cons. by right.
Qed.

(** C8, as the code has it: an entry created with [autoClose: false] gets no
    timer from the call, and it stays in the registry and among the
    wrapper's children through any later calls and any passing of time, as
    long as [removeToast] is not called for its id and no timer for the same
    id was still pending when the entry was created. *)
Theorem autoClose_false_entry_stays
    (s : state) (message : string) (opts : gmap string value) (rnd : string)
    (evs : list event) :
  wf s →
  toasts s !! toast_id opts rnd = None →
  prop opts "autoClose" = VBool false →
  (∀ t, t ∈ timers s → tid t ≠ toast_id opts rnd) →
  Remove (toast_id opts rnd) ∉ evs →
  let id := toast_id opts rnd in
  let s1 := (showToast message opts rnd s).2 in
  let s' := run evs s1 in
  timers s1 = timers s ∧
  toasts s' !! id = Some (length (store s)) ∧
  length (store s) ∈ children s'.
Proof.
  intros Hwf E Hauto Hold Hrem id s1 s'. subst id.
  set (id := toast_id opts rnd) in *.
  assert (timers s1 = timers s) as Ht.
  { subst s1. rewrite showToast_timers. fold id. rewrite E.
    rewrite decide_False; [done |]. rewrite Hauto. by intros H; apply H. }
  assert (toasts s1 !! id = Some (length (store s))) as Hl.
  { subst s1. rewrite showToast_toasts. fold id. rewrite E.
    apply lookup_insert_eq. }
  assert (wf s1) as Hwf1 by (by apply wf_showToast).
  assert (∀ t, t ∈ timers s1 → tid t ≠ id) as Hold1 by (by rewrite Ht).
  split; [done |].
  cut (wf s' ∧ toasts s' !! id = Some (length (store s))).
  { intros [Hw Hs]. split; [done |]. by eapply wf_reg_child. }
  subst s'. clearbody s1 id. clear Hwf E Hold Ht Hauto.
  revert s1 Hl Hwf1 Hold1 Hrem.
  induction evs as [| e evs IH]; intros s1 Hl Hwf1 Hold1 Hrem; [done |].
  rewrite run_cons. apply IH.
  - destruct e as [m o r | k | dt]; unfold step.
    + destruct (decide (toast_id o r = id)) as [Heq | Hne].
      * rewrite <- Heq. apply showToast_lookup_same. by rewrite Heq.
      * by rewrite showToast_lookup_other.
    + rewrite removeToast_lookup. rewrite decide_False; [done |].
      intros [-> _]. apply Hrem. apply elem_of_cons. by left.
    + rewrite advance_keep; [done |]. intros t Hin _. by apply Hold1.
  - by apply wf_step.
  - destruct e as [m o r | k | dt]; unfold step; intros t Hin.
    + apply showToast_timers_elem in Hin as [Hin | [Hin Hnone]].
      * by apply Hold1.
      * rewrite Hin. intros Heq. rewrite Heq in Hnone. congruence.
    + rewrite removeToast_timers in Hin. by apply Hold1.
    + apply advance_timers in Hin. by apply Hold1.
  - intros Hin. apply Hrem. apply elem_of_cons. by right.
Qed.

(** *** Examples on the empty page *)

Import Samples.

Lemma showToast_same_id_example :
  wf init ∧
  displayed (VStr "x")
    (showToast "second" opts_x_error_sticky "q"
       (showToast "first" opts_x "r" init).2).2 = Some "second".
Proof.
  split; [exact wf_init |].
  destruct (showToast_same_id_updates_in_place init "first" opts_x "r" wf_init)
    as [_ H].
  destruct (H "second" opts_x_error_sticky "q" eq_refl)
    as (_ & h & _ & _ & Hd & _).
  exact Hd.
Defined.

Lemma showToast_update_ignores_options_example :
  let s := (showToast "first" opts_x "r" init).2 in
  wf s ∧ toasts s !! VStr "x" = Some 0 ∧
  showToast "second" opts_x_error_sticky "q" s = showToast "second" opts_x "r" s.
Proof.
  intros s.
  assert (wf s) as Hwf by (apply wf_showToast, wf_init).
  split; [exact Hwf |]. split; [reflexivity |].
  exact (proj1 (showToast_update_ignores_options s "second" opts_x
                  opts_x_error_sticky "r" "q" 0 Hwf eq_refl eq_refl)).
Defined.

Lemma removeToast_absent_example :
  toasts init !! VStr "sending" = None ∧
  removeToast (VStr "sending") init = init.
Proof.
  split; [reflexivity |].
  exact (proj1 (removeToast_idempotent_and_noop_when_absent
                  (VStr "sending") init eq_refl)).
Defined.


Lemma stale_timer_example :
  let s := (showToast "first" opts_x "r" init).2 in
  let s' := run [Show "Please fill all fields correctly." opts_error "k3x9";
                 Advance 5000] (removeToast (VStr "x") s) in
  fire (Timer 3000 (VStr "x")) s' = s'.
Proof.
  intros s.
  apply (stale_timer_is_noop_unless_id_reused s (VStr "x")); [| reflexivity].
  intros m o r Hin.
  apply elem_of_cons in Hin as [Heq | Hin].
  - injection Heq as -> -> ->. vm_compute. discriminate.
  - apply elem_of_cons in Hin as [Heq | Hin]; [discriminate |].
    by apply elem_of_nil in Hin.
Defined.

Lemma sending_toast_stays_example :
  let evs := [Advance 10000;
              Show "Please fill all fields correctly." opts_error "k3x9";
              Remove (VStr "t_k3x9");
              Advance 10000] in
  wf init ∧
  toasts (run evs (showToast "Sending message..." opts_sending "r" init).2)
    !! VStr "sending" = Some 0.
Proof.
  intros evs. split; [exact wf_init |].
  assert (Remove (toast_id opts_sending "r") ∉ evs) as Hrem.
  { intros Hin. subst evs.
    repeat (apply elem_of_cons in Hin as [Heq | Hin]; [discriminate |]).
    by apply elem_of_nil in Hin. }
  assert (∀ t, t ∈ timers init → tid t ≠ toast_id opts_sending "r") as Hold.
  { intros t Hin. by apply elem_of_nil in Hin. }
  exact (proj1 (proj2 (autoClose_false_entry_stays init "Sending message..."
                  opts_sending "r" evs wf_init eq_refl eq_refl Hold Hrem))).
Defined.

(** The contact form's successful submission: the "sending" toast is shown
    without a timer, 900 time units later the result toast is shown and the
    "sending" toast removed; the result toast closes itself 3000 later. *)
Example contact_form_success :
  let s := run [Show "Sending message..." opts_sending "a1b2";
                Advance 900;
                Show "Message sent" opts_success "k3x9";
                Remove (VStr "sending")] init in
  children s = [1] ∧
  displayed (VStr "t_k3x9") s = Some "Message sent" ∧
  toasts s !! VStr "sending" = None ∧
  timers s = [Timer 3900 (VStr "t_k3x9")] ∧
  children (advance 2999 s) = [1] ∧
  children (advance 3000 s) = [].
Proof. vm_compute. done. Qed.

(** A timer left by an earlier entry of the same id: show "x" for 50,
    remove it, show "x" again for 100.  Both timers are pending; the
    second entry is still there after 49 time units and gone after 50. *)
Example older_timer_removes_new_entry_early :
  let s := run [Show "first" opts_x_50 "r"; Remove (VStr "x")] init in
  let s' := (showToast "second" opts_x_100 "r" s).2 in
  toasts s !! VStr "x" = None ∧
  timers s' = [Timer 50 (VStr "x"); Timer 100 (VStr "x")] ∧
  toasts (advance 49 s') !! VStr "x" = Some 1 ∧
  children (advance 49 s') = [1] ∧
  toasts (advance 50 s') !! VStr "x" = None ∧
  children (advance 50 s') = [].
Proof. vm_compute. done. Qed.

(** *** Where the claims as written fail *)


(** Against C2 as written: show "x" (a timer is set), remove "x", show "x"
    again with [autoClose: false].  The timer of the first entry is still
    pending; when it fires it finds the id and removes the second entry. *)
Lemma stale_timer_removes_reused_id :
  let s := run [Show "first" opts_x "r";
                Remove (VStr "x");
                Show "second" opts_x_sticky "r"] init in
  timers s = [Timer 3000 (VStr "x")] ∧
  toasts s !! VStr "x" = Some 1 ∧
  children s = [1] ∧
  toasts (fire (Timer 3000 (VStr "x")) s) !! VStr "x" = None ∧
  children (fire (Timer 3000 (VStr "x")) s) = [] ∧
  fire (Timer 3000 (VStr "x")) s ≠ s.
Proof.
  vm_compute. split_and!; done.
Qed.

(** Against C8 as written: the entry below is created with
    [autoClose: false] and [removeToast] is never called after that, yet
    50 time units after the first call it is gone from the registry and
    from the wrapper, removed by the timer of an earlier entry with the
    same id. *)
Lemma autoClose_false_entry_removed_by_old_timer :
  let s0 := run [Show "first" opts_x_50 "r"; Remove (VStr "x")] init in
  let s1 := (showToast "second" opts_x_sticky "r" s0).2 in
  prop opts_x_sticky "autoClose" = VBool false ∧
  toasts s0 !! VStr "x" = None ∧
  toasts s1 !! VStr "x" = Some 1 ∧
  children s1 = [1] ∧
  toasts (run [Advance 50] s1) !! VStr "x" = None ∧
  children (run [Advance 50] s1) = [].
Proof. vm_compute. done. Qed.

(** ** The active-section tracker *)

Section TrackerLemmas.

Implicit Types (l : link) (e v : entry) (links : list link)
  (entries : list entry) (blue id : string).

Lemma sort_insert_head {A} (cmp : A → A → Q) (x : A) (s : list A) :
  head (JS.sort_insert cmp x s) =
    match head s with
    | None => Some x
    | Some y => if Qle_bool (cmp x y) 0 then Some x else Some y
    end.
Proof. destruct s as [| y s]; simpl; [done |]. by destruct (Qle_bool _ _). Qed.

(** The head of the sorted list is an element of greatest ratio. *)
Lemma sort_head_max (s : list entry) :
  match head (JS.sort by_ratio_desc s) with
  | None => s = []
  | Some v =>
      v ∈ s ∧
      ∀ e, e ∈ s → (intersectionRatio e <= intersectionRatio v)%Q
  end.
Proof.
  induction s as [| x s IH]; [done |].
  change (JS.sort by_ratio_desc (x :: s))
    with (JS.sort_insert by_ratio_desc x (JS.sort by_ratio_desc s)).
  rewrite sort_insert_head.
  destruct (head (JS.sort by_ratio_desc s)) as [y |].
  - destruct IH as [Hy Hmax].
    destruct (Qle_bool (by_ratio_desc x y) 0) eqn:Hc.
    + apply Qle_bool_iff in Hc. unfold by_ratio_desc in Hc.
      split; [apply elem_of_cons; by left |].
      intros e [-> | He]%elem_of_cons; [apply Qle_refl |].
      specialize (Hmax e He). lra.
    + assert (¬ (by_ratio_desc x y <= 0)%Q) as Hc'
        by (intros Hc'%Qle_bool_iff; congruence).
      unfold by_ratio_desc in Hc'.
      split; [apply elem_of_cons; by right |].
      intros e [-> | He]%elem_of_cons; [lra | by apply Hmax].
  - subst s. split; [apply elem_of_cons; by left |].
    intros e [-> | He]%elem_of_cons; [apply Qle_refl |].
    by apply elem_of_nil in He.
Qed.

Lemma visible_spec entries :
  match visible entries with
  | None => ∀ e, e ∈ entries → isIntersecting e = false
  | Some v =>
      v ∈ entries ∧ isIntersecting v = true ∧
      ∀ e, e ∈ entries → isIntersecting e = true →
           (intersectionRatio e <= intersectionRatio v)%Q
  end.
Proof.
  unfold visible.
  pose proof (sort_head_max (filter (λ e, isIntersecting e = true) entries))
    as H.
  destruct (head _) as [v |].
  - destruct H as [[Hv Hin]%list_elem_of_filter Hmax].
    split_and!; [done .. |].
    intros e He Hi. apply Hmax. by apply list_elem_of_filter.
  - intros e He. destruct (isIntersecting e) eqn:Hi; [| done].
    assert (e ∈ filter (λ e, isIntersecting e = true) entries) as Hf
      by (by apply list_elem_of_filter).
    rewrite H in Hf. by apply elem_of_nil in Hf.
Qed.

Lemma href_mark blue id l : href (mark blue id l) = href l.
Proof. unfold mark. by case_decide. Qed.

Lemma is_active_mark blue id l :
  is_active (mark blue id l) ↔ href l = Some ("#" +:+ id).
Proof.
  unfold mark, is_active. case_decide as Hd; simpl.
  - split; [done |]. intros _. apply elem_of_union. right.
    by apply elem_of_singleton.
  - split; [| done]. intros [_ Hn]%elem_of_difference.
    exfalso. apply Hn. by apply elem_of_singleton.
Qed.

(** A later marking overrides an earlier one. *)
Lemma mark_mark blue blue' id id' l :
  mark blue id (mark blue' id' l) = mark blue id l.
Proof.
  unfold mark at 1 3. rewrite href_mark.
  unfold mark, activate, deactivate.
  repeat case_decide; simpl; f_equal; apply set_eq; intros x;
    repeat (rewrite elem_of_union || rewrite elem_of_difference);
    rewrite ?elem_of_singleton; destruct (decide (x = "active")); tauto.
Qed.

Lemma count_active_mark blue id links :
  count_active (mark blue id <$> links) =
    length (filter (λ l, href l = Some ("#" +:+ id)) links).
Proof.
  unfold count_active.
  induction links as [| l links IH]; [done |].
  rewrite fmap_cons, !filter_cons.
  destruct (decide (is_active (mark blue id l))) as [Ha | Ha];
    destruct (decide (href l = Some ("#" +:+ id))) as [Hh | Hh];
    simpl; rewrite ?IH; try done.
  - by apply is_active_mark in Ha.
  - exfalso. apply Ha. by apply is_active_mark.
Qed.

Lemma count_href_le_1 links id :
  NoDup (inpage_hrefs links) →
  length (filter (λ l, href l = Some ("#" +:+ id)) links) ≤ 1.
Proof.
  unfold inpage_hrefs.
  induction links as [| l links IH]; intros Hnd; [simpl; lia |].
  rewrite filter_cons. cbn beta.
  destruct (decide (href l = Some ("#" +:+ id))) as [Hd | Hd].
  - simpl in Hnd. rewrite Hd in Hnd.
    rewrite filter_cons, decide_True in Hnd by done.
    apply NoDup_cons in Hnd as [Hnotin _]. simpl.
    assert (filter (λ l, href l = Some ("#" +:+ id)) links = []) as ->;
      [| done].
    apply elem_of_nil_inv. intros l' [Hl' Hin]%list_elem_of_filter.
    apply Hnotin. apply list_elem_of_filter. split; [done |].
    apply list_elem_of_omap. eauto.
  - apply IH. simpl in Hnd.
    destruct (href l) as [h |]; [| done].
    rewrite filter_cons in Hnd.
    case_decide; [by apply NoDup_cons in Hnd as [_ ?] | done].
Qed.

Lemma replace_leading_hash (h : string) :
  replace "#" "" (String "#" h) = h.
Proof. simpl. by destruct (decide ("#"%char = "#"%char)). Qed.

Lemma section_of_href doc l id :
  section_of doc l = Some id → href l = Some ("#" +:+ id).
Proof.
  unfold section_of.
  destruct (href l) as [h |]; simpl; [| done].
  destruct h as [| c h]; [done |].
  unfold startsWith. case_bool_decide as Hc; simpl negb; cbv iota; [| done].
  subst c. rewrite replace_leading_hash.
  case_decide; [| done]. by intros [= ->].
Qed.

Lemma count_href_ge_1 doc links id :
  id ∈ sections doc links →
  1 ≤ length (filter (λ l, href l = Some ("#" +:+ id)) links).
Proof.
  unfold sections. intros (l & Hin & Hs)%list_elem_of_omap.
  apply section_of_href in Hs.
  assert (l ∈ filter (λ l, href l = Some ("#" +:+ id)) links) as Hf
    by (by apply list_elem_of_filter).
  destruct (filter _ links); [by apply elem_of_nil in Hf | simpl; lia].
Qed.

Lemma observe_all_snoc steps st links :
  observe_all (steps ++ [st]) links =
    observe st.1 st.2 (observe_all steps links).
Proof. unfold observe_all. by rewrite foldl_app. Qed.

(** A run of callbacks leaves the links as they were when no callback saw
    an intersecting entry, and otherwise as the last such callback marked
    them. *)
Lemma observe_all_last steps links :
  (observe_all steps links = links ∧
   ∀ st e, st ∈ steps → e ∈ st.2 → isIntersecting e = false) ∨
  (∃ st v, st ∈ steps ∧ v ∈ st.2 ∧ isIntersecting v = true ∧
           observe_all steps links = mark st.1 (target v) <$> links).
Proof.
  induction steps as [| st steps IH] using rev_ind.
  - left. split; [done |]. intros st e Hst. by apply elem_of_nil in Hst.
  - rewrite observe_all_snoc. unfold observe.
    pose proof (visible_spec st.2) as Hv.
    destruct (visible st.2) as [v |].
    + right. exists st, v. destruct Hv as (Hin & Hi & _).
      split_and!; [apply elem_of_app; right; by apply list_elem_of_singleton
                  | done .. |].
      destruct IH as [[-> _] | (st' & v' & _ & _ & _ & ->)]; [done |].
      rewrite <- list_fmap_compose. apply list_fmap_ext.
      intros i l _. apply mark_mark.
    + destruct IH as [[Heq Hnone] | (st' & v' & Hst' & Hin' & Hi' & Heq)].
      * left. split; [done |].
        intros st0 e [Hst0 | ->%list_elem_of_singleton]%elem_of_app He;
          [by eapply Hnone | by apply Hv].
      * right. exists st', v'. split_and!; try done.
        apply elem_of_app. by left.
Qed.

End TrackerLemmas.


(** C5: an observer callback none of whose entries is intersecting leaves
    every link as it was, class list and colour included; a link that was
    active stays active. *)
Theorem observe_nothing_visible_keeps_links
    (blue : string) (entries : list entry) (links : list link) :
  (∀ e, e ∈ entries → isIntersecting e = false) →
  observe blue entries links = links.
Proof.
  intros Hnone. unfold observe.
  pose proof (visible_spec entries) as Hs.
  destruct (visible entries) as [v |]; [| done].
  destruct Hs as (Hin & Hvi & _). specialize (Hnone v Hin). congruence.
Qed.

(** C6, as the code has it: when no two links carry the same in-page href,
    at most one link is active after any run of observer callbacks, given
    that at most one was marked active to begin with; and exactly one is
    active once some callback has delivered an intersecting entry, the
    entries being for the sections the links resolve to. *)
Theorem at_most_one_active_link
    (doc : gset string) (links : list link)
    (steps : list (string * list entry)) :
  NoDup (inpage_hrefs links) →
  let links' := observe_all steps links in
  (count_active links ≤ 1 → count_active links' ≤ 1) ∧
  ((∀ st e, st ∈ steps → e ∈ st.2 → isIntersecting e = true →
            target e ∈ sections doc links) →
   (∃ st e, st ∈ steps ∧ e ∈ st.2 ∧ isIntersecting e = true) →
   count_active links' = 1).
Proof.
  intros Hnd links'. subst links'.
  destruct (observe_all_last steps links)
    as [[-> Hnone] | (st & v & Hst & Hv & Hi & ->)].
  - split; [done |].
    intros _ (st & e & Hst & He & Hi).
    specialize (Hnone st e Hst He). congruence.
  - rewrite count_active_mark.
    pose proof (count_href_le_1 links (target v) Hnd) as Hle.
    split; [done |].
    intros Hobs _.
    pose proof (count_href_ge_1 doc links (target v) (Hobs st v Hst Hv Hi)).
    lia.
Qed.

(** *** Examples on a three-link navigation bar *)


Lemma none_visible_example :
  (∀ e, e ∈ none_visible → isIntersecting e = false) ∧
  observe "#00bfff" none_visible nav_abc = nav_abc.
Proof.
  assert (∀ e, e ∈ none_visible → isIntersecting e = false) as Hnone.
  { intros e He. unfold none_visible in He.
    repeat (apply elem_of_cons in He as [-> | He]; [done |]).
    by apply elem_of_nil in He. }
  split; [exact Hnone |].
  exact (observe_nothing_visible_keeps_links "#00bfff" none_visible nav_abc
           Hnone).
Defined.

Lemma one_active_example :
  let steps := [("#00bfff", none_visible); ("#00bfff", only_b)] in
  NoDup (inpage_hrefs nav_abc) ∧
  count_active nav_abc ≤ 1 ∧
  count_active (observe_all steps nav_abc) = 1.
Proof.
  intros steps.
  assert (NoDup (inpage_hrefs nav_abc)) as Hnd.
  { apply (bool_decide_unpack _). vm_compute. exact I. }
  assert (count_active nav_abc ≤ 1) as H0 by (vm_compute; lia).
  split; [exact Hnd |]. split; [exact H0 |].
  apply (proj2 (at_most_one_active_link {["a"; "b"; "c"]} nav_abc steps
                  Hnd)).
  - intros st e Hst He Hi. subst steps.
    repeat (apply elem_of_cons in Hst as [-> | Hst];
            [simpl in He;
             repeat (apply elem_of_cons in He as [-> | He];
                     [first [discriminate Hi
                            | apply (bool_decide_unpack _); vm_compute;
                              exact I] |]);
             by apply elem_of_nil in He |]).
    by apply elem_of_nil in Hst.
  - exists ("#00bfff", only_b), (Entry "b" true (3 # 4)).
    split_and!; [| | reflexivity].
    + apply elem_of_cons. right. apply elem_of_cons. by left.
    + apply elem_of_cons. right. apply elem_of_cons. by left.
Defined.

(** Against C6 as written: with two links for [#about], a callback that
    sees the section [about] marks both of them active. *)
Lemma two_links_one_section_both_active :
  let links' := observe "#00bfff" [Entry "about" true 1] nav_twice in
  count_active nav_twice = 0 ∧
  sections {["about"; "work"]} nav_twice = ["about"; "about"; "work"] ∧
  (λ l, bool_decide (is_active l)) <$> links' = [true; true; false] ∧
  count_active links' = 2.
Proof. vm_compute. done. Qed.


(** ** escapeHtml *)

Section EscapeHtml.

Implicit Types (s t pre post : string) (c : ascii).

Lemma app_cons c s t : String c s +:+ t = String c (s +:+ t).
Proof. reflexivity. Qed.

Lemma app_empty_l t : "" +:+ t = t.
Proof. reflexivity. Qed.

Lemma app_assoc' s t u : (s +:+ t) +:+ u = s +:+ (t +:+ u).
Proof. induction s as [| c s IH]; [done |]. by rewrite !app_cons, IH. Qed.

Lemma replaceAll_app c r s t :
  replaceAll c r (s +:+ t) = replaceAll c r s +:+ replaceAll c r t.
Proof.
  induction s as [| c' s IH]; [done |].
  rewrite app_cons. simpl. case_decide.
  - by rewrite IH, app_assoc'.
  - by rewrite IH.
Qed.

Lemma replace_entities_cons c s :
  replace_entities (String c s) =
    replace_entities (String c "") +:+ replace_entities s.
Proof.
  change (String c s) with (String c "" +:+ s).
  unfold replace_entities. by rewrite !replaceAll_app.
Qed.

(** What the chain makes of a single character. *)
Lemma replace_entities_one c :
  (c = "&"%char ∧ replace_entities (String c "") = "&amp;") ∨
  (c = "<"%char ∧ replace_entities (String c "") = "&lt;") ∨
  (c = ">"%char ∧ replace_entities (String c "") = "&gt;") ∨
  (c = "034"%char ∧ replace_entities (String c "") = "&quot;") ∨
  (c = "'"%char ∧ replace_entities (String c "") = "&#39;") ∨
  (c ≠ "&"%char ∧ c ≠ "<"%char ∧ c ≠ ">"%char ∧ c ≠ "034"%char ∧
   c ≠ "'"%char ∧ replace_entities (String c "") = String c "").
Proof.
  destruct (decide (c = "&"%char)) as [-> | H1]; [left; by vm_compute |].
  destruct (decide (c = "<"%char)) as [-> | H2];
    [right; left; by vm_compute |].
  destruct (decide (c = ">"%char)) as [-> | H3];
    [right; right; left; by vm_compute |].
  destruct (decide (c = "034"%char)) as [-> | H4];
    [right; right; right; left; by vm_compute |].
  destruct (decide (c = "'"%char)) as [-> | H5];
    [right; right; right; right; left; by vm_compute |].
  do 5 right. split_and!; try done.
  unfold replace_entities. simpl.
  rewrite (decide_False (P := c = "&"%char)) by done. simpl.
  rewrite (decide_False (P := c = "<"%char)) by done. simpl.
  rewrite (decide_False (P := c = ">"%char)) by done. simpl.
  rewrite (decide_False (P := c = "034"%char)) by done. simpl.
  rewrite (decide_False (P := c = "'"%char)) by done. done.
Qed.

(** A character of [ent +:+ t], for an entity [ent], is the leading [&],
    or one of the plain characters after it, or a character of [t]. *)
Lemma split_entity ent t pre c post :
  ent ∈ entities →
  ent +:+ t = pre +:+ String c post →
  (pre = "" ∧ c = "&"%char ∧ String c post = ent +:+ t) ∨
  (c ≠ "&"%char ∧ c ≠ "<"%char ∧ c ≠ ">"%char ∧ c ≠ "034"%char ∧
   c ≠ "'"%char) ∨
  (∃ pre', t = pre' +:+ String c post).
Proof.
  unfold entities. intros Hent H.
  repeat (apply elem_of_cons in Hent as [-> | Hent]);
    [.. | by apply elem_of_nil in Hent];
    (destruct pre as [| ? pre];
     [ left; rewrite app_empty_l in H; rewrite <- H;
       injection H as <- _; done
     | rewrite !app_cons in H; injection H as <- H ]);
    repeat (destruct pre as [| ? pre];
            [ rewrite ?app_empty_l, ?app_cons in H;
              injection H as <- _; right; left; done
            | rewrite ?app_cons in H; injection H as <- H ]);
    right; right; exists pre; exact H.
Qed.

Lemma replace_entities_chars s pre c post :
  replace_entities s = pre +:+ String c post →
  c ≠ "<"%char ∧ c ≠ ">"%char ∧ c ≠ "034"%char ∧ c ≠ "'"%char ∧
  (c = "&"%char →
   ∃ ent rest, ent ∈ entities ∧ String c post = ent +:+ rest).
Proof.
  revert pre. induction s as [| x s IH]; intros pre H.
  { destruct pre; discriminate H. }
  rewrite replace_entities_cons in H.
  assert (∀ ent, ent ∈ entities →
            ent +:+ replace_entities s = pre +:+ String c post →
            c ≠ "<"%char ∧ c ≠ ">"%char ∧ c ≠ "034"%char ∧ c ≠ "'"%char ∧
            (c = "&"%char →
             ∃ ent rest, ent ∈ entities ∧ String c post = ent +:+ rest))
    as Hent.
  { intros ent Hin Heq.
    destruct (split_entity _ _ _ _ _ Hin Heq)
      as [(_ & -> & Hpost) | [(N1 & N2 & N3 & N4 & N5) | [pre' Hrest]]].
    - split_and!; try done. intros _. by exists ent, (replace_entities s).
    - split_and!; done.
    - by apply (IH pre'). }
  unfold entities in Hent.
  destruct (replace_entities_one x)
    as [[_ E] | [[_ E] | [[_ E] | [[_ E] | [[_ E] |
        (N1 & N2 & N3 & N4 & N5 & E)]]]]];
    rewrite E in H.
  - apply (Hent "&amp;"); [| done]. apply elem_of_cons. by left.
  - apply (Hent "&lt;"); [| done]. do 1 (apply elem_of_cons; right).
    apply elem_of_cons. by left.
  - apply (Hent "&gt;"); [| done]. do 2 (apply elem_of_cons; right).
    apply elem_of_cons. by left.
  - apply (Hent "&quot;"); [| done]. do 3 (apply elem_of_cons; right).
    apply elem_of_cons. by left.
  - apply (Hent "&#39;"); [| done]. do 4 (apply elem_of_cons; right).
    apply elem_of_cons. by left.
  - rewrite app_cons, app_empty_l in H.
    destruct pre as [| y pre].
    + rewrite app_empty_l in H. injection H as <- _. split_and!; done.
    + rewrite app_cons in H. injection H as _ H. by apply (IH pre).
Qed.

Lemma escapeHtml_string s : escapeHtml (VStr s) = replace_entities s.
Proof. by destruct s. Qed.

End EscapeHtml.

(** C9: no character of [escapeHtml(s)] is a raw [<], [>], double quote or
    single quote, and wherever an [&] occurs in it, the text from there on
    starts with one of [&amp;], [&lt;], [&gt;], [&quot;], [&#39;].  For
    [null], [undefined] and the empty string the result is the empty
    string. *)
Theorem escapeHtml_output_is_escaped (s : string) :
  (∀ pre c post, escapeHtml (VStr s) = pre +:+ String c post →
     c ≠ "<"%char ∧ c ≠ ">"%char ∧ c ≠ "034"%char ∧ c ≠ "'"%char ∧
     (c = "&"%char →
      ∃ ent rest, ent ∈ entities ∧ String c post = ent +:+ rest)) ∧
  escapeHtml VNull = "" ∧ escapeHtml VUndef = "" ∧ escapeHtml (VStr "") = "".
Proof.
  split; [| done].
  intros pre c post. rewrite escapeHtml_string. apply replace_entities_chars.
Qed.

Lemma escapeHtml_example :
  escapeHtml (VStr "<a href='x'>T&J</a>") =
    "&lt;a href=&#39;x&#39;&gt;T&amp;J&lt;/a&gt;" ∧
  ∃ ent rest, ent ∈ entities ∧ "&amp;J&lt;/a&gt;" = ent +:+ rest.
Proof.
  split; [reflexivity |].
  exact (proj2 (proj2 (proj2 (proj2
    (proj1 (escapeHtml_output_is_escaped "<a href='x'>T&J</a>")
       "&lt;a href=&#39;x&#39;&gt;T" "&"%char "amp;J&lt;/a&gt;" eq_refl))))
    eq_refl).
Defined.

(** * Further properties *)

(** ** Toasts: creation, removal and the reachable states *)

Section ToastMore.

Implicit Types (s : state) (id k : value) (h : nat).

Lemma filter_ne_fresh (l : list nat) (x : nat) :
  x ∉ l → filter (λ y, y ≠ x) l = l.
Proof.
  induction l as [| y l IH]; intros Hx; [done |].
  rewrite filter_cons, decide_True.
  - f_equal. apply IH. intros Hin. apply Hx. apply elem_of_cons. by right.
  - intros ->. apply Hx. apply elem_of_cons. by left.
Qed.

Lemma filter_ne_length (l : list nat) (x : nat) :
  NoDup l → x ∈ l → S (length (filter (λ y, y ≠ x) l)) = length l.
Proof.
  induction 1 as [| y l Hy Hnd IH]; intros Hin;
    [by apply elem_of_nil in Hin |].
  rewrite filter_cons. destruct (decide (y ≠ x)) as [Hne | Heq].
  - apply elem_of_cons in Hin as [-> | Hin]; [done |].
    simpl. f_equal. by apply IH.
  - assert (y = x) as -> by (destruct (decide (y = x)); [done | tauto]).
    by rewrite filter_ne_fresh.
Qed.

(** A consistent state has as many wrapper children as registry entries. *)
Lemma wf_length s : wf s → length (children s) = size (toasts s).
Proof.
  intros [H1 H2 H3 H4 H5].
  rewrite <- length_map_to_list, <- (length_fmap snd).
  apply Permutation_length, NoDup_Permutation; [done | |].
  - apply NoDup_fmap_2_strong; [| apply NoDup_map_to_list].
    intros [k1 h1] [k2 h2] Hk1%elem_of_map_to_list Hk2%elem_of_map_to_list.
    simpl. intros <-. f_equal. by eapply H4.
  - intros h. rewrite list_elem_of_fmap. split.
    + intros [id Hid]%H3. exists (id, h). split; [done |].
      by apply elem_of_map_to_list.
    + intros ([id h'] & -> & Hin%elem_of_map_to_list). by eapply H2.
Qed.

Lemma displayed_store_app id s toasts' extra wrapper' timers' now' :
  wf s → toasts' !! id = toasts s !! id →
  displayed id (State toasts' (store s ++ extra) wrapper' timers' now') =
  displayed id s.
Proof.
  intros Hwf Ht. unfold displayed. simpl. rewrite Ht.
  destruct (toasts s !! id) as [h |] eqn:E; [| done]. simpl.
  rewrite lookup_app_l; [done |].
  eapply wf_store; [done |]. by eapply wf_reg_child.
Qed.

Lemma truthy_keys_step s e :
  (∀ id h, toasts s !! id = Some h → truthy id = true) →
  ∀ id h, toasts (step s e) !! id = Some h → truthy id = true.
Proof.
  intros Hs id h. destruct e as [m o r | k | dt]; unfold step.
  - rewrite showToast_toasts.
    destruct (toasts s !! toast_id o r) eqn:E; [apply Hs |].
    rewrite lookup_insert. case_decide as Hd.
    + intros _. rewrite <- Hd. apply truthy_toast_id.
    + apply Hs.
  - rewrite removeToast_lookup. case_decide; [done | apply Hs].
  - intros H%advance_lookup_Some. by eapply Hs.
Qed.

Lemma truthy_keys_run evs s :
  (∀ id h, toasts s !! id = Some h → truthy id = true) →
  ∀ id h, toasts (run evs s) !! id = Some h → truthy id = true.
Proof.
  revert s. induction evs as [| e evs IH]; intros s Hs; [done |].
  rewrite run_cons. apply IH. by apply truthy_keys_step.
Qed.

Lemma removeToast_now k s : now (removeToast k s) = now s.
Proof.
  unfold removeToast. destruct (negb (truthy k)); [done |].
  by destruct (toasts s !! k).
Qed.



(** What firing timers does to one id depends only on that id's entry. *)
Lemma fire_all_lookup_congr l s s' k :
  toasts s !! k = toasts s' !! k →
  toasts (fire_all l s) !! k = toasts (fire_all l s') !! k.
Proof.
  revert s s'. induction l as [| t l IH]; intros s s' H; [done |].
  rewrite !fire_all_cons. apply IH. unfold fire.
  rewrite !removeToast_lookup. by case_decide.
Qed.

Lemma advance_lookup_congr dt s s' k :
  timers s = timers s' → now s = now s' →
  toasts s !! k = toasts s' !! k →
  toasts (advance dt s) !! k = toasts (advance dt s') !! k.
Proof.
  intros Ht Hn H. rewrite !advance_toasts, Ht, Hn.
  by apply fire_all_lookup_congr.
Qed.

End ToastMore.

(** The fields of the state after a [showToast] with an unregistered id. *)
Lemma showToast_fresh_fields
    (s : state) (message : string) (opts : gmap string value) (rnd : string) :
  toasts s !! toast_id opts rnd = None →
  let s' := (showToast message opts rnd s).2 in
  toasts s' = <[toast_id opts rnd := length (store s)]> (toasts s) ∧
  store s' = store s ++ [Element "vk-toast" message
                           (toast_style (prop opts "type"))] ∧
  children s' = children s ++ [length (store s)].
Proof.
  intros E. cbv zeta. rewrite (showToast_create _ _ _ _ E). cbv zeta.
  by case_decide.
Qed.

Lemma fresh_entry_facts
    (s s' : state) (id : value) (el : element) :
  wf s →
  toasts s !! id = None →
  toasts s' = <[id := length (store s)]> (toasts s) →
  store s' = store s ++ [el] →
  children s' = children s ++ [length (store s)] →
  size (toasts s') = S (size (toasts s)) ∧
  toasts s' !! id = Some (length (store s)) ∧
  store s' !! length (store s) = Some el ∧
  displayed id s' = Some (textContent el) ∧
  (∀ k, k ≠ id →
     toasts s' !! k = toasts s !! k ∧ displayed k s' = displayed k s).
Proof.
  intros Hwf E Ht Hst Hc.
  assert (store s' !! length (store s) = Some el) as Hel
    by (rewrite Hst; by apply list_lookup_middle).
  split_and!.
  - rewrite Ht. by apply map_size_insert_None.
  - rewrite Ht. apply lookup_insert_eq.
  - done.
  - unfold displayed. rewrite Ht, lookup_insert_eq. simpl. by rewrite Hel.
  - intros k Hk.
    assert (toasts s' !! k = toasts s !! k) as Hlk
      by (by rewrite Ht, lookup_insert_ne).
    split; [done |]. unfold displayed. rewrite Hlk.
    destruct (toasts s !! k) as [h |] eqn:Ek; [| done]. simpl.
    rewrite Hst, lookup_app_l; [done |].
    eapply wf_store; [done |]. by eapply wf_reg_child.
Qed.

(** X1: a [showToast] whose id is not yet registered returns that id and
    registers one new element under it: the registry grows by one, the
    element is appended after the existing children of the wrapper, it
    carries the class [vk-toast], the message and the style of the [type]
    option, and every other entry is registered and displayed as before. *)
Theorem showToast_fresh_id_adds_one
    (s : state) (message : string) (opts : gmap string value) (rnd : string) :
  wf s →
  toasts s !! toast_id opts rnd = None →
  let id := toast_id opts rnd in
  let r := showToast message opts rnd s in
  r.1 = id ∧
  size (toasts r.2) = S (size (toasts s)) ∧
  children r.2 = children s ++ [length (store s)] ∧
  toasts r.2 !! id = Some (length (store s)) ∧
  store r.2 !! length (store s) =
    Some (Element "vk-toast" message (toast_style (prop opts "type"))) ∧
  displayed id r.2 = Some message ∧
  (∀ k, k ≠ id →
     toasts r.2 !! k = toasts s !! k ∧ displayed k r.2 = displayed k s).
Proof.
  intros Hwf E id r. subst r id.
  destruct (showToast_fresh_fields s message opts rnd E) as (Ht & Hst & Hc).
  destruct (fresh_entry_facts s _ _ _ Hwf E Ht Hst Hc)
    as (F1 & F2 & F3 & F4 & F5).
  split_and!; try done.
  unfold showToast.
  destruct (toasts (ensure_wrapper s) !! toast_id opts rnd); [done |].
  by case_decide.
Qed.

(** X2: [removeToast] of a registered (truthy) id deletes that entry and
    takes its element out of the wrapper: registry and wrapper each lose
    exactly one member, the other entries are registered and displayed as
    before, and no timer is touched. *)
Theorem removeToast_registered_id_removes_one
    (s : state) (id : value) (h : nat) :
  wf s →
  truthy id = true →
  toasts s !! id = Some h →
  let s' := removeToast id s in
  toasts s' = delete id (toasts s) ∧
  S (size (toasts s')) = size (toasts s) ∧
  children s' = filter (λ x, x ≠ h) (children s) ∧
  (h ∉ children s') ∧
  S (length (children s')) = length (children s) ∧
  (∀ k, k ≠ id → displayed k s' = displayed k s) ∧
  timers s' = timers s ∧
  wf s'.
Proof.
  intros Hwf Hid E s'.
  assert (children s' = filter (λ x, x ≠ h) (children s)) as Hc
    by (by apply removeToast_children).
  assert (toasts s' = delete id (toasts s)) as Ht.
  { subst s'. unfold removeToast. by rewrite Hid, E. }
  split_and!.
  - done.
  - rewrite Ht. rewrite map_size_delete_Some by eauto.
    assert (size (toasts s) ≠ 0); [| lia].
    intros Hz%map_size_empty_inv. rewrite Hz in E. by rewrite lookup_empty in E.
  - done.
  - rewrite Hc. intros [Hne _]%list_elem_of_filter. done.
  - rewrite Hc. apply filter_ne_length; [by apply wf_nodup |].
    by eapply wf_reg_child.
  - intros k Hk. unfold displayed. rewrite Ht, lookup_delete_ne by done.
    subst s'. by rewrite removeToast_store.
  - apply removeToast_timers.
  - by apply wf_removeToast.
Qed.

(** X3: in every state the page can reach from the empty one by calls of
    [showToast] and [removeToast] and by the passing of time, the registry
    and the wrapper agree: the wrapper has exactly one child per registry
    entry, no child twice, each child is a stored element, and each entry is
    displayed. *)
Theorem reachable_registry_matches_wrapper (evs : list event) :
  let s := run evs init in
  NoDup (children s) ∧
  length (children s) = size (toasts s) ∧
  (∀ id h, toasts s !! id = Some h →
     h ∈ children s ∧ is_Some (displayed id s)) ∧
  (∀ h, h ∈ children s → ∃ id, toasts s !! id = Some h).
Proof.
  intros s. assert (wf s) as Hwf by apply wf_reachable.
  split_and!.
  - by apply wf_nodup.
  - by apply wf_length.
  - intros id h E.
    assert (h ∈ children s) as Hin by (by eapply wf_reg_child).
    split; [done |]. unfold displayed. rewrite E. simpl.
    destruct (lookup_lt_is_Some_2 (store s) h) as [el Hel];
      [by eapply wf_store |].
    rewrite Hel. by eexists.
  - by apply wf_child_reg.
Qed.

(** X4: no entry is ever registered under a falsy id (the empty string, 0,
    [null], [undefined], [false]): an id that is falsy is replaced by a
    generated one before it is used.  So in a reachable state the guard
    [if (!id) return] of [removeToast] never keeps a registered toast from
    being removed. *)
Theorem reachable_ids_are_truthy (evs : list event) (id : value) (h : nat) :
  toasts (run evs init) !! id = Some h →
  truthy id = true ∧
  toasts (removeToast id (run evs init)) !! id = None ∧
  (h ∉ children (removeToast id (run evs init))).
Proof.
  intros E.
  assert (truthy id = true) as Hid.
  { eapply (truthy_keys_run evs init); [| exact E].
    intros k h' Hk. simpl in Hk. by rewrite lookup_empty in Hk. }
  split_and!; [done | |].
  - rewrite removeToast_lookup. by rewrite decide_True.
  - rewrite (removeToast_children _ _ _ Hid E).
    intros [Hne _]%list_elem_of_filter. done.
Qed.

(** X5: showing a toast under an unregistered id and removing it again
    leaves the registry and the wrapper's children exactly as they were;
    what stays behind is the timer, when the call set one. *)
Theorem showToast_then_removeToast_restores
    (s : state) (message : string) (opts : gmap string value) (rnd : string) :
  wf s →
  toasts s !! toast_id opts rnd = None →
  let id := toast_id opts rnd in
  let s' := removeToast id (showToast message opts rnd s).2 in
  toasts s' = toasts s ∧
  children s' = children s ∧
  timers s' = timers (showToast message opts rnd s).2 ∧
  (prop opts "autoClose" = VBool false → timers s' = timers s).
Proof.
  intros Hwf E id s'. subst id.
  set (id := toast_id opts rnd) in *.
  set (s1 := (showToast message opts rnd s).2) in *.
  assert (toasts s1 = <[id := length (store s)]> (toasts s)) as Ht1.
  { subst s1. rewrite showToast_toasts. fold id. by rewrite E. }
  assert (toasts s1 !! id = Some (length (store s))) as E1
    by (rewrite Ht1; apply lookup_insert_eq).
  assert (children s1 = children s ++ [length (store s)]) as Hc1.
  { subst s1 id. rewrite (showToast_create _ _ _ _ E). cbv zeta.
    by case_decide. }
  assert (truthy id = true) as Hid by apply truthy_toast_id.
  split_and!.
  - subst s'. unfold removeToast. rewrite Hid, E1. simpl.
    rewrite Ht1. by apply delete_insert_id.
  - subst s'. rewrite (removeToast_children _ _ _ Hid E1), Hc1.
    rewrite filter_app, filter_ne_fresh.
    + rewrite filter_cons, decide_False by (intros Hn; by apply Hn).
      by rewrite app_nil_r.
    + intros Hin. eapply wf_store in Hin; [lia | done].
  - apply removeToast_timers.
  - intros Hauto. subst s'. rewrite removeToast_timers. subst s1.
    rewrite showToast_timers. fold id. rewrite E.
    rewrite decide_False; [done |]. rewrite Hauto. by intros Hn; apply Hn.
Qed.

(** ** escapeHtml: concatenation, injectivity, texts it leaves alone *)

Section EscapeMore.

Implicit Types (s t : string) (c : ascii).

Lemma length_app' s t :
  String.length (s +:+ t) = String.length s + String.length t.
Proof. induction s as [| c s IH]; [done |]. rewrite app_cons. simpl. by rewrite IH. Qed.

Lemma replace_entities_app s t :
  replace_entities (s +:+ t) = replace_entities s +:+ replace_entities t.
Proof. unfold replace_entities. by rewrite !replaceAll_app. Qed.

(** The chain turns a character into itself or into an entity that starts
    with [&] and is four to six characters long. *)
Lemma replace_entities_one_shape c :
  (c ≠ "&"%char ∧ c ≠ "<"%char ∧ c ≠ ">"%char ∧ c ≠ "034"%char ∧
   c ≠ "'"%char ∧ replace_entities (String c "") = String c "") ∨
  (c ∈ ["&"; "<"; ">"; "034"; "'"]%char ∧
   ∃ tail, replace_entities (String c "") = String "&" tail ∧
           3 ≤ String.length tail ≤ 5).
Proof.
  destruct (replace_entities_one c)
    as [[-> E] | [[-> E] | [[-> E] | [[-> E] | [[-> E] | H]]]]];
    [right; rewrite E; split; [| eexists; split; [reflexivity | simpl; lia]] ..
    | by left].
  - apply elem_of_cons. by left.
  - do 1 (apply elem_of_cons; right). apply elem_of_cons. by left.
  - do 2 (apply elem_of_cons; right). apply elem_of_cons. by left.
  - do 3 (apply elem_of_cons; right). apply elem_of_cons. by left.
  - do 4 (apply elem_of_cons; right). apply elem_of_cons. by left.
Qed.

Lemma replace_entities_length s :
  String.length s ≤ String.length (replace_entities s) ≤ 6 * String.length s.
Proof.
  induction s as [| c s IH]; [simpl; lia |].
  rewrite replace_entities_cons, length_app'.
  destruct (replace_entities_one_shape c)
    as [(_ & _ & _ & _ & _ & ->) | (_ & tail & -> & Hlen)]; simpl; lia.
Qed.

Lemma replace_entities_inj s t :
  replace_entities s = replace_entities t → s = t.
Proof.
  revert t. induction s as [| x s IH]; intros [| y t] H.
  - done.
  - exfalso. pose proof (replace_entities_length (String y t)) as Hl.
    rewrite <- H in Hl. simpl in Hl. lia.
  - exfalso. pose proof (replace_entities_length (String x s)) as Hl.
    rewrite H in Hl. simpl in Hl. lia.
  - rewrite (replace_entities_cons x), (replace_entities_cons y) in H.
    destruct (replace_entities_one x)
      as [[-> Ex] | [[-> Ex] | [[-> Ex] | [[-> Ex] | [[-> Ex] |
          (X1 & X2 & X3 & X4 & X5 & Ex)]]]]];
      rewrite Ex in H;
      destruct (replace_entities_one y)
        as [[-> Ey] | [[-> Ey] | [[-> Ey] | [[-> Ey] | [[-> Ey] |
            (Y1 & Y2 & Y3 & Y4 & Y5 & Ey)]]]]];
      rewrite Ey in H; rewrite ?app_cons, ?app_empty_l in H;
      try discriminate H;
      try (injection H as H; f_equal; by apply IH);
      try (injection H as Hc H; congruence).
    injection H as -> H. f_equal. by apply IH.
Qed.

End EscapeMore.

(** X6: escaping distributes over concatenation: escaping a text in pieces
    and joining the results gives the same as escaping the whole. *)
Theorem escapeHtml_concat (s t : string) :
  escapeHtml (VStr (s +:+ t)) = escapeHtml (VStr s) +:+ escapeHtml (VStr t).
Proof. rewrite !escapeHtml_string. apply replace_entities_app. Qed.

(** X7: on strings [escapeHtml] loses nothing: two different texts never
    have the same escaped form. *)
Theorem escapeHtml_injective (s t : string) :
  escapeHtml (VStr s) = escapeHtml (VStr t) → s = t.
Proof. rewrite !escapeHtml_string. apply replace_entities_inj. Qed.

(** X8: the escaped text is never shorter than the text and at most six
    times as long, and it is the text itself exactly when the text has none
    of the five characters [&], [<], [>], double quote, single quote. *)
Theorem escapeHtml_length_and_fixed_points (s : string) :
  String.length s ≤ String.length (escapeHtml (VStr s)) ≤ 6 * String.length s ∧
  (escapeHtml (VStr s) = s ↔
   Forall (λ c, c ∉ ["&"; "<"; ">"; "034"; "'"]%char)
          (list_ascii_of_string s)).
Proof.
  rewrite escapeHtml_string. split; [apply replace_entities_length |].
  induction s as [| c s IH]; simpl.
  - split; [constructor | done].
  - rewrite replace_entities_cons.
    destruct (replace_entities_one_shape c)
      as [(N1 & N2 & N3 & N4 & N5 & ->) | (Hin & tail & -> & Hlen)].
    + rewrite app_cons, app_empty_l. split.
      * intros [= H]. constructor; [| by apply IH].
        intros Hc. repeat (apply elem_of_cons in Hc as [-> | Hc]; [done |]).
        by apply elem_of_nil in Hc.
      * intros H. apply Forall_cons in H as [_ H]. f_equal. by apply IH.
    + split.
      * rewrite app_cons. intros [= <- H]. exfalso.
        pose proof (replace_entities_length s) as Hl.
        assert (String.length s = String.length (tail +:+ replace_entities s))
          as Hs by (by rewrite H).
        rewrite length_app' in Hs. lia.
      * intros H. apply Forall_cons in H as [Hc _]. done.
Qed.

(** ** The tracker: ties, repeated callbacks, the bound sections *)

Section TrackerMore.

Implicit Types (l : link) (e v : entry) (links : list link)
  (entries : list entry) (blue id : string).

(** The head of the sorted list is the first element of greatest ratio. *)
Lemma sort_head_first_max (s : list entry) :
  match head (JS.sort by_ratio_desc s) with
  | None => s = []
  | Some v =>
      ∃ xs ys, s = xs ++ v :: ys ∧
        (∀ e, e ∈ xs → (intersectionRatio e < intersectionRatio v)%Q) ∧
        (∀ e, e ∈ ys → (intersectionRatio e <= intersectionRatio v)%Q)
  end.
Proof.
  induction s as [| x s IH]; [done |].
  change (JS.sort by_ratio_desc (x :: s))
    with (JS.sort_insert by_ratio_desc x (JS.sort by_ratio_desc s)).
  rewrite sort_insert_head.
  destruct (head (JS.sort by_ratio_desc s)) as [y |].
  - destruct IH as (xs & ys & -> & H1 & H2).
    destruct (Qle_bool (by_ratio_desc x y) 0) eqn:Hc.
    + apply Qle_bool_iff in Hc. unfold by_ratio_desc in Hc.
      exists [], (xs ++ y :: ys). split_and!; [done | |].
      * intros e He. by apply elem_of_nil in He.
      * intros e [He | [-> | He]%elem_of_cons]%elem_of_app.
        -- specialize (H1 e He). lra.
        -- lra.
        -- specialize (H2 e He). lra.
    + assert (¬ (by_ratio_desc x y <= 0)%Q) as Hc'
        by (intros Hc'%Qle_bool_iff; congruence).
      unfold by_ratio_desc in Hc'.
      exists (x :: xs), ys. split_and!; [done | | done].
      intros e [-> | He]%elem_of_cons; [lra | by apply H1].
  - subst s. exists [], []. split_and!; [done | |];
      intros e He; by apply elem_of_nil in He.
Qed.

Lemma filter_split {A} (P : A → Prop) `{∀ x, Decision (P x)}
    (l f1 f2 : list A) (v : A) :
  filter P l = f1 ++ v :: f2 →
  ∃ xs ys, l = xs ++ v :: ys ∧ filter P xs = f1 ∧ filter P ys = f2 ∧ P v.
Proof.
  revert f1. induction l as [| x l IH]; intros f1 Hf.
  - destruct f1; discriminate Hf.
  - rewrite filter_cons in Hf. destruct (decide (P x)) as [Hx | Hx].
    + destruct f1 as [| y f1]; simpl in Hf.
      * injection Hf as -> Hf. exists [], l. done.
      * injection Hf as <- Hf. destruct (IH f1 Hf) as (xs & ys & -> & <- & <- & Hv).
        exists (x :: xs), ys. split_and!; try done.
        by rewrite filter_cons, decide_True.
    + destruct (IH f1 Hf) as (xs & ys & -> & <- & <- & Hv).
      exists (x :: xs), ys. split_and!; try done.
      by rewrite filter_cons, decide_False.
Qed.

Lemma section_of_spec doc l id :
  section_of doc l = Some id ↔
  href l = Some ("#" +:+ id) ∧ id ≠ "" ∧ id ∈ doc.
Proof.
  split.
  - intros H. split; [by eapply section_of_href |].
    revert H. unfold section_of.
    destruct (negb _); [done |]. case_decide as Hd; [| done].
    by intros [= <-].
  - intros (Hh & Hne & Hin). unfold section_of. rewrite Hh. simpl.
    change ("" +:+ "" +:+ id) with id. by rewrite decide_True.
Qed.

Lemma visible_of_intersecting entries :
  (∃ e, e ∈ entries ∧ isIntersecting e = true) →
  ∃ v, visible entries = Some v.
Proof.
  intros (e & He & Hi). pose proof (visible_spec entries) as Hs.
  destruct (visible entries) as [v |]; [by exists v |].
  specialize (Hs e He). congruence.
Qed.

End TrackerMore.

(** X9: among the intersecting entries of one callback the tracker picks
    the first, in the order delivered, of those with the greatest ratio:
    every intersecting entry before the chosen one has a strictly smaller
    ratio, and none after it has a greater one. *)
Theorem visible_is_first_of_highest_ratio
    (entries : list entry) (v : entry) :
  visible entries = Some v →
  isIntersecting v = true ∧
  ∃ before after, entries = before ++ v :: after ∧
    (∀ e, e ∈ before → isIntersecting e = true →
          (intersectionRatio e < intersectionRatio v)%Q) ∧
    (∀ e, e ∈ after → isIntersecting e = true →
          (intersectionRatio e <= intersectionRatio v)%Q).
Proof.
  unfold visible. intros Hv.
  pose proof (sort_head_first_max
                (filter (λ e, isIntersecting e = true) entries)) as H.
  rewrite Hv in H. destruct H as (f1 & f2 & Hf & H1 & H2).
  destruct (filter_split _ _ _ _ _ Hf) as (xs & ys & -> & <- & <- & Hi).
  split; [done |]. exists xs, ys. split_and!; [done | |].
  - intros e He Hei. apply H1. by apply list_elem_of_filter.
  - intros e He Hei. apply H2. by apply list_elem_of_filter.
Qed.

(** X10: a callback that sees an intersecting entry overrides whatever
    earlier callbacks did: the links after it are the same as if it had
    been the only callback.  In particular, delivering the same entries
    twice changes nothing further. *)
Theorem observe_overrides_earlier_callbacks
    (blue blue' : string) (entries entries' : list entry)
    (links : list link) :
  (∃ e, e ∈ entries ∧ isIntersecting e = true) →
  observe blue entries (observe blue' entries' links) =
    observe blue entries links ∧
  observe blue entries (observe blue entries links) =
    observe blue entries links.
Proof.
  intros [v Hv]%visible_of_intersecting.
  assert (∀ b' es', observe blue entries (observe b' es' links) =
                    observe blue entries links) as H.
  { intros b' es'. unfold observe at 1 3. rewrite Hv.
    unfold observe. destruct (visible es') as [v' |]; [| done].
    rewrite <- list_fmap_compose. apply list_fmap_ext.
    intros i l _. apply mark_mark. }
  split; apply H.
Qed.

(** X11: the sections the tracker observes are exactly the non-empty ids of
    elements of the document that some link names by an href of the form
    [#id]; links without href, with an href that does not start with [#],
    or whose target is missing contribute nothing. *)
Theorem sections_are_the_linked_ids
    (doc : gset string) (links : list link) (id : string) :
  id ∈ sections doc links ↔
  id ≠ "" ∧ id ∈ doc ∧ ∃ l, l ∈ links ∧ href l = Some ("#" +:+ id).
Proof.
  unfold sections. rewrite list_elem_of_omap. split.
  - intros (l & Hin & (Hh & Hne & Hd)%section_of_spec). eauto.
  - intros (Hne & Hd & l & Hin & Hh). exists l. split; [done |].
    by apply section_of_spec.
Qed.

(** X12: after a callback that saw an intersecting entry, every link is
    either active, carries the computed colour and points at the section of
    an intersecting entry of greatest ratio, or it is inactive and its
    inline colour is cleared; classes other than [active] are kept. *)
Theorem observe_active_links_point_at_winner
    (blue : string) (entries : list entry) (links : list link) :
  (∃ e, e ∈ entries ∧ isIntersecting e = true) →
  ∃ v, v ∈ entries ∧ isIntersecting v = true ∧
    (∀ e, e ∈ entries → isIntersecting e = true →
          (intersectionRatio e <= intersectionRatio v)%Q) ∧
    Forall2 (λ l l',
      href l' = href l ∧
      (∀ c, c ≠ "active" → c ∈ classList l' ↔ c ∈ classList l) ∧
      ((is_active l' ∧ color l' = blue ∧
        href l' = Some ("#" +:+ target v)) ∨
       (¬ is_active l' ∧ color l' = "" ∧
        href l' ≠ Some ("#" +:+ target v))))
      links (observe blue entries links).
Proof.
  intros [v Hv]%visible_of_intersecting.
  pose proof (visible_spec entries) as Hs. rewrite Hv in Hs.
  destruct Hs as (Hin & Hi & Hmax).
  exists v. split_and!; [done .. |].
  unfold observe. rewrite Hv.
  apply Forall2_fmap_r, Forall_Forall2_diag, Forall_forall.
  intros l _. split; [apply href_mark |].
  unfold mark, is_active. case_decide as Hd; simpl.
  - split.
    + intros c Hc. rewrite elem_of_union, elem_of_singleton. tauto.
    + left. split_and!; [| done | done].
      apply elem_of_union. right. by apply elem_of_singleton.
  - split.
    + intros c Hc. rewrite elem_of_difference, elem_of_singleton. tauto.
    + right. split_and!; [| done | done].
      intros [_ Hn]%elem_of_difference. apply Hn. by apply elem_of_singleton.
Qed.

(** ** The menu, the previews and the Escape key *)

Section PageLemmas.

Import Page.

Implicit Types (s : state) (k : nat) (ks : list nat) (key : string).

Lemma filter_all {A} (P : A → Prop) `{∀ x, Decision (P x)} (l : list A) :
  (∀ x, P x) → filter P l = l.
Proof.
  intros HP. induction l as [| x l IH]; [done |].
  by rewrite filter_cons, decide_True, IH.
Qed.

Lemma close_all_fields ks s :
  navMenu (close_all ks s) = navMenu s ∧
  burger (close_all ks s) = burger s ∧
  overflow (close_all ks s) = overflow s ∧
  next_overlay (close_all ks s) = next_overlay s ∧
  overlays (close_all ks s) = filter (λ o, o.1 ∉ ks) (overlays s) ∧
  escListeners (close_all ks s) = filter (λ j, j ∉ ks) (escListeners s).
Proof.
  revert s. induction ks as [| k ks IH]; intros s.
  - simpl. split_and!; try done; symmetry; apply filter_all;
      intros x; apply not_elem_of_nil.
  - change (close_all (k :: ks) s) with (close_all ks (closeModal k s)).
    destruct (IH (closeModal k s)) as (-> & -> & -> & -> & -> & ->).
    simpl. split_and!; try done.
    + rewrite list_filter_filter. apply list_filter_iff.
      intros o. rewrite not_elem_of_cons. tauto.
    + rewrite list_filter_filter. apply list_filter_iff.
      intros j. rewrite not_elem_of_cons. tauto.
Qed.

Lemma keydown_Escape s :
  keydown "Escape" s =
    close_all (escListeners s) (shortcuts_keydown "Escape" s).
Proof.
  unfold keydown, close_all.
  generalize (shortcuts_keydown "Escape" s).
  induction (escListeners s) as [| k ks IH]; intros s0; [done |].
  simpl. rewrite IH. unfold escListener. by rewrite decide_True.
Qed.

Lemma keydown_other key s : key ≠ "Escape" → keydown key s = s.
Proof.
  intros Hk. unfold keydown, shortcuts_keydown.
  rewrite decide_False by done.
  induction (escListeners s) as [| k ks IH]; [done |].
  simpl. unfold escListener at 2. by rewrite decide_False.
Qed.

Lemma shortcuts_Escape_fields s :
  let s1 := shortcuts_keydown "Escape" s in
  overlays s1 = tail (overlays s) ∧
  escListeners s1 = escListeners s ∧
  next_overlay s1 = next_overlay s ∧
  (∀ m, navMenu s1 = Some m → "active" ∉ m) ∧
  (in_sync s → in_sync s1).
Proof.
  unfold shortcuts_keydown. rewrite decide_True by done. cbv zeta.
  destruct (navMenu s) as [m |] eqn:Em.
  - destruct (decide ("active" ∈ m)) as [Ha | Ha]; simpl.
    + split_and!; try done.
      * intros m' [= <-]. rewrite elem_of_difference, elem_of_singleton. tauto.
      * intros _ m' h'. simpl. intros [= <-] Hb.
        destruct (burger s) as [h |]; [| done]. injection Hb as <-. simpl.
        rewrite !elem_of_difference, !elem_of_singleton. split_and!; split;
          try tauto; discriminate.
    + rewrite Em. split_and!; try done.
      * intros m' [= <-]. done.
      * intros Hs m' h'. simpl. intros [= <-] Hb. by apply Hs.
  - rewrite Em. simpl. split_and!; try done.
Qed.

Lemma filter_fst_fmap (k : nat) (l : list (nat * string)) :
  (filter (λ o, o.1 ≠ k) l).*1 = filter (λ j, j ≠ k) l.*1.
Proof.
  induction l as [| o l IH]; [done |].
  rewrite fmap_cons. destruct (decide (o.1 ≠ k)) as [Hk | Hk].
  - rewrite !filter_cons_True by done. by rewrite fmap_cons, IH.
  - by rewrite !filter_cons_False.
Qed.

Lemma booked_keydown_Escape s :
  booked s →
  overlays (keydown "Escape" s) = [] ∧ escListeners (keydown "Escape" s) = [].
Proof.
  intros (Hb & _ & _). rewrite keydown_Escape.
  destruct (close_all_fields (escListeners s) (shortcuts_keydown "Escape" s))
    as (_ & _ & _ & _ & -> & ->).
  destruct (shortcuts_Escape_fields s) as (-> & -> & _).
  split.
  - apply elem_of_nil_inv. intros o [Hn Hin]%list_elem_of_filter.
    apply Hn. rewrite <- Hb. apply list_elem_of_fmap. exists o.
    split; [done |]. destruct (overlays s); [done |].
    apply elem_of_cons. by right.
  - apply elem_of_nil_inv. intros j [Hn Hin]%list_elem_of_filter. done.
Qed.

Lemma booked_step s e : booked s → booked (step s e).
Proof.
  intros (Hb & Hnd & Hlt). destruct e as [| | c | k | key]; simpl.
  - unfold hamburger_click.
    destruct (navMenu s), (burger s); done.
  - unfold nav_link_click.
    destruct (navMenu s), (burger s); try done. by case_decide.
  - destruct c as [c |]; [| done]. unfold booked. simpl.
    split_and!.
    + by rewrite fmap_app, Hb.
    + apply NoDup_app. split_and!; [done | | apply NoDup_singleton].
      intros j Hj ->%list_elem_of_singleton. apply Hlt in Hj. lia.
    + intros j [Hj | ->%list_elem_of_singleton]%elem_of_app; [| lia].
      apply Hlt in Hj. lia.
  - case_decide; [| done]. unfold booked. simpl. split_and!.
    + by rewrite filter_fst_fmap, Hb.
    + by apply NoDup_filter.
    + intros j [_ Hj]%list_elem_of_filter. by apply Hlt.
  - destruct (decide (key = "Escape")) as [-> | Hk].
    + destruct (booked_keydown_Escape s) as [Ho He]; [done |].
      unfold booked. rewrite Ho, He. split_and!; [done | constructor |].
      intros j Hj. by apply elem_of_nil in Hj.
    + by rewrite keydown_other.
Qed.

Lemma booked_run evs s : booked s → booked (run evs s).
Proof.
  revert s. induction evs as [| e evs IH]; intros s Hs; [done |].
  apply IH. by apply booked_step.
Qed.

Lemma booked_loaded menu b ov : booked (loaded menu b ov).
Proof.
  unfold booked. simpl. split_and!; [done | constructor |].
  intros k Hk. by apply elem_of_nil in Hk.
Qed.

Lemma in_sync_hamburger_click s : in_sync (hamburger_click s).
Proof.
  unfold hamburger_click.
  destruct (navMenu s) as [m |] eqn:Em; [| intros m' h'; by rewrite Em].
  destruct (burger s) as [h |] eqn:Eh;
    [| intros m' h'; by rewrite Eh].
  intros m' h'. simpl. intros [= <-] [= <-]. simpl.
  unfold toggle_to. case_bool_decide as Ha; simpl.
  - rewrite !elem_of_union, !elem_of_singleton. split_and!; split; auto.
  - rewrite !elem_of_difference, !elem_of_singleton.
    split_and!; split; try tauto; discriminate.
Qed.

Lemma in_sync_nav_link_click s : in_sync s → in_sync (nav_link_click s).
Proof.
  intros Hs. unfold nav_link_click.
  destruct (navMenu s) as [m |] eqn:Em; [| done].
  destruct (burger s) as [h |] eqn:Eh; [| done].
  case_decide; [| done].
  intros m' h'. simpl. intros [= <-] [= <-]. simpl.
  rewrite !elem_of_difference, !elem_of_singleton.
  split_and!; split; try tauto; discriminate.
Qed.

Lemma in_sync_close_all ks s : in_sync s → in_sync (close_all ks s).
Proof.
  intros Hs m h.
  destruct (close_all_fields ks s) as (-> & -> & -> & _). apply Hs.
Qed.

Lemma in_sync_step s e : in_sync s → in_sync (step s e).
Proof.
  intros Hs. destruct e as [| | c | k | key]; simpl.
  - apply in_sync_hamburger_click.
  - by apply in_sync_nav_link_click.
  - by destruct c.
  - by case_decide.
  - destruct (decide (key = "Escape")) as [-> | Hk].
    + rewrite keydown_Escape. apply in_sync_close_all.
      by apply shortcuts_Escape_fields.
    + by rewrite keydown_other.
Qed.

Lemma in_sync_run evs s : in_sync s → in_sync (run evs s).
Proof.
  revert s. induction evs as [| e evs IH]; intros s Hs; [done |].
  apply IH. by apply in_sync_step.
Qed.

End PageLemmas.

Section PageLemmas2.

Import Page.

Implicit Types (s : state) (k : nat) (key : string).

Lemma shortcuts_Escape_closed s :
  overlays s = [] → (∀ m, navMenu s = Some m → "active" ∉ m) →
  shortcuts_keydown "Escape" s = s.
Proof.
  intros Ho Hm. unfold shortcuts_keydown. rewrite decide_True by done.
  cbv zeta. destruct s as [m b ov os es n]. simpl in *. subst os.
  destruct m as [m |]; [| done].
  rewrite decide_False; [done |]. by apply Hm.
Qed.

Lemma toggle_twice (c : string) (cl : gset string) :
  let on := bool_decide (c ∉ cl) in
  let cl' := toggle_to c on cl in
  toggle_to c (bool_decide (c ∉ cl')) cl' = cl.
Proof.
  cbv zeta. unfold toggle_to. destruct (decide (c ∈ cl)) as [Hc | Hc].
  - rewrite (bool_decide_eq_false_2 (c ∉ cl)) by tauto.
    rewrite bool_decide_eq_true_2
      by (rewrite elem_of_difference, elem_of_singleton; tauto).
    apply set_eq. intros x.
    rewrite elem_of_union, elem_of_difference, elem_of_singleton.
    split; [intros [[? ?] | ->]; done |].
    intros Hx. destruct (decide (x = c)); [by right | by left].
  - rewrite (bool_decide_eq_true_2 (c ∉ cl)) by done.
    rewrite bool_decide_eq_false_2.
    + apply set_eq. intros x.
      rewrite elem_of_difference, elem_of_union, elem_of_singleton.
      split; [tauto |]. intros Hx. split; [by left |]. by intros ->.
    + intros Hn. apply Hn. apply elem_of_union. right.
      by apply elem_of_singleton.
Qed.

Lemma hamburger_click_wired s m h :
  navMenu s = Some m → burger s = Some h →
  hamburger_click s =
    {| navMenu := Some (toggle_to "active" (bool_decide ("active" ∉ m)) m);
       burger :=
         Some {| h_classList :=
                   toggle_to "is-open" (bool_decide ("active" ∉ m))
                     (h_classList h);
                 aria_expanded :=
                   Some (if bool_decide ("active" ∉ m)
                         then "true" else "false") |};
       overflow := if bool_decide ("active" ∉ m) then "hidden" else "";
       overlays := overlays s; escListeners := escListeners s;
       next_overlay := next_overlay s |}.
Proof. intros Em Eh. unfold hamburger_click. by rewrite Em, Eh. Qed.

Lemma hamburger_click_unwired s :
  navMenu s = None ∨ burger s = None → hamburger_click s = s.
Proof.
  intros [E | E]; unfold hamburger_click; rewrite E; [done |].
  by destruct (navMenu s).
Qed.

End PageLemmas2.

(** X19: on a page where previews have been opened and closed in any way,
    one press of Escape closes every open preview and leaves none of their
    key listeners registered, and it closes the menu.  A second press
    changes nothing, and no other key changes anything. *)
Theorem Escape_closes_menu_and_previews
    (menu : option (gset string)) (b : option Page.hamburger) (ov : string)
    (evs : list Page.event) :
  let s := Page.run evs (Page.loaded menu b ov) in
  let s' := Page.keydown "Escape" s in
  Page.overlays s' = [] ∧
  Page.escListeners s' = [] ∧
  (∀ m, Page.navMenu s' = Some m → "active" ∉ m) ∧
  Page.keydown "Escape" s' = s' ∧
  (∀ key, key ≠ "Escape" → Page.keydown key s = s).
Proof.
  intros s s'.
  assert (Page.booked s) as Hb by apply booked_run, booked_loaded.
  destruct (booked_keydown_Escape s Hb) as [Ho He].
  assert (∀ m, Page.navMenu s' = Some m → "active" ∉ m) as Hm.
  { subst s'. rewrite keydown_Escape.
    destruct (close_all_fields (Page.escListeners s)
                (Page.shortcuts_keydown "Escape" s)) as (-> & _).
    apply shortcuts_Escape_fields. }
  assert (Page.overlays s' = []) as Ho' by exact Ho.
  assert (Page.escListeners s' = []) as He' by exact He.
  split_and!; try done.
  - clearbody s'. rewrite keydown_Escape, He'.
    unfold Page.close_all. simpl. by apply shortcuts_Escape_closed.
  - intros key Hk. by apply keydown_other.
Qed.

(** X20: however previews are opened and closed, the open previews and the
    registered key listeners correspond one to one, in the same order;
    closing a preview that is open takes exactly that preview and exactly
    its listener away. *)
Theorem previews_and_listeners_correspond
    (menu : option (gset string)) (b : option Page.hamburger) (ov : string)
    (evs : list Page.event) :
  let s := Page.run evs (Page.loaded menu b ov) in
  (Page.overlays s).*1 = Page.escListeners s ∧
  NoDup (Page.escListeners s) ∧
  ∀ k, k ∈ Page.escListeners s →
    let s' := Page.step s (Page.CloseClick k) in
    (Page.overlays s').*1 = Page.escListeners s' ∧
    Page.escListeners s' = filter (λ j, j ≠ k) (Page.escListeners s) ∧
    S (length (Page.overlays s')) = length (Page.overlays s).
Proof.
  intros s.
  assert (Page.booked s) as Hb by apply booked_run, booked_loaded.
  destruct Hb as (H1 & H2 & H3). split_and!; [done .. |].
  intros k Hk s'. subst s'. simpl.
  rewrite decide_True by (by rewrite H1). simpl.
  split_and!.
  - by rewrite filter_fst_fmap, H1.
  - done.
  - rewrite <- (length_fmap fst), filter_fst_fmap, H1.
    rewrite <- (length_fmap fst (Page.overlays s)), H1.
    by apply filter_ne_length.
Qed.

(** X21: once the hamburger has been clicked, or from a page on which they
    agree to begin with, the four marks of an open menu always agree: the
    menu has the class [active] exactly when the hamburger has [is-open],
    when [aria-expanded] is "true", and when the body's overflow is
    "hidden". *)
Theorem menu_marks_stay_in_sync (s : Page.state) (evs : list Page.event) :
  Page.in_sync s ∨ Page.HamburgerClick ∈ evs →
  Page.in_sync (Page.run evs s).
Proof.
  revert s. induction evs as [| e evs IH]; intros s [Hs | Hin].
  - done.
  - by apply elem_of_nil in Hin.
  - by apply in_sync_run.
  - change (Page.in_sync (Page.run evs (Page.step s e))).
    apply elem_of_cons in Hin as [<- | Hin].
    + apply in_sync_run. apply in_sync_hamburger_click.
    + apply IH. by right.
Qed.

(** X22: two clicks on the hamburger give the menu its class list back;
    on a page whose marks agree the hamburger's class list comes back as
    well. *)
Theorem hamburger_click_twice (s : Page.state) :
  let s2 := Page.hamburger_click (Page.hamburger_click s) in
  Page.navMenu s2 = Page.navMenu s ∧
  (Page.in_sync s →
   Page.h_classList <$> Page.burger s2 = Page.h_classList <$> Page.burger s).
Proof.
  cbv zeta.
  destruct (Page.navMenu s) as [m |] eqn:Em;
    [| rewrite !(hamburger_click_unwired s) by (by left); by rewrite Em].
  destruct (Page.burger s) as [h |] eqn:Eh;
    [| rewrite !(hamburger_click_unwired s) by (by right);
       by rewrite Em, Eh].
  rewrite (hamburger_click_wired s m h Em Eh).
  erewrite hamburger_click_wired; [| reflexivity | reflexivity].
  simpl. split.
  - f_equal. apply toggle_twice.
  - intros Hs. destruct (Hs m h Em Eh) as (H1 & _). f_equal.
    assert (bool_decide ("active" ∉ m) =
            bool_decide ("is-open" ∉ Page.h_classList h)) as ->.
    { apply bool_decide_ext. tauto. }
    assert (bool_decide ("active" ∉ Page.toggle_to "active"
                           (bool_decide ("is-open" ∉ Page.h_classList h)) m) =
            bool_decide ("is-open" ∉ Page.toggle_to "is-open"
                           (bool_decide ("is-open" ∉ Page.h_classList h))
                           (Page.h_classList h))) as ->.
    { apply bool_decide_ext. unfold Page.toggle_to.
      case_bool_decide as Hc;
        rewrite ?elem_of_union, ?elem_of_difference, !elem_of_singleton;
        tauto. }
    apply toggle_twice.
Qed.

(** X23: on a page that has both the menu and the hamburger, a click on a
    navigation link leaves the menu closed, lifts the scroll lock when the
    menu was open, and a second click changes nothing. *)
Theorem nav_link_click_closes_menu (s : Page.state) (m : gset string) :
  Page.navMenu s = Some m →
  is_Some (Page.burger s) →
  let s' := Page.nav_link_click s in
  Page.navMenu s' = Some (m ∖ {["active"]}) ∧
  ("active" ∈ m → Page.overflow s' = "") ∧
  Page.nav_link_click s' = s'.
Proof.
  intros Em [h Eh] s'. subst s'. unfold Page.nav_link_click.
  rewrite Em, Eh. destruct (decide ("active" ∈ m)) as [Ha | Ha]; simpl.
  - split_and!; [done | done |].
    rewrite decide_False; [done |].
    rewrite elem_of_difference, elem_of_singleton. tauto.
  - rewrite Em, Eh. split_and!; [| done |].
    + f_equal. apply set_eq. intros x.
      rewrite elem_of_difference, elem_of_singleton.
      split; [| tauto]. intros Hx. split; [done |]. by intros ->.
    + by rewrite decide_False.
Qed.

Section ModalHtml.

Import Page.

Implicit Types (c : ascii) (s t : string).

Lemma count_char_app c s t :
  count_char c (s +:+ t) = count_char c s + count_char c t.
Proof.
  induction s as [| x s IH]; [done |].
  rewrite app_cons. simpl. rewrite IH. lia.
Qed.

Lemma count_char_none c s :
  (∀ pre x post, s = pre +:+ String x post → x ≠ c) → count_char c s = 0.
Proof.
  induction s as [| x s IH]; intros H; [done |]. simpl.
  rewrite decide_False by (by apply (H "" x s)).
  rewrite IH; [done |].
  intros pre y post ->. by apply (H (String x pre) y post).
Qed.

Lemma count_char_escapeHtml c t :
  c ∈ ["<"; ">"; "034"; "'"]%char →
  count_char c (escapeHtml (VStr t)) = 0.
Proof.
  intros Hc. apply count_char_none. intros pre x post Hx.
  rewrite escapeHtml_string in Hx.
  destruct (replace_entities_chars _ _ _ _ Hx) as (N1 & N2 & N3 & N4 & _).
  repeat (apply elem_of_cons in Hc as [-> | Hc]; [done |]).
  by apply elem_of_nil in Hc.
Qed.

Lemma count_char_span c t :
  c ∈ ["<"; ">"; "034"; "'"]%char →
  count_char c (span_html t) = count_char c (span_html "").
Proof.
  intros Hc. unfold span_html.
  rewrite !count_char_app, !count_char_escapeHtml by done. done.
Qed.

Lemma count_char_join_spans c (tags : list string) :
  c ∈ ["<"; ">"; "034"; "'"]%char →
  count_char c (join (span_html <$> tags)) =
    length tags * count_char c (span_html "").
Proof.
  intros Hc. induction tags as [| t tags IH]; [done |].
  rewrite fmap_cons. unfold join in *. simpl foldr.
  rewrite count_char_app, IH, (count_char_span c t) by done. simpl. lia.
Qed.

Lemma count_char_modal_html c icon title description (tags : list string) :
  c ∈ ["<"; ">"; "034"; "'"]%char →
  count_char c (modal_html icon title description tags) =
    count_char c (modal_html "" "" "" []) +
    length tags * count_char c (span_html "").
Proof.
  intros Hc. unfold modal_html.
  rewrite !count_char_app, !count_char_escapeHtml by done.
  rewrite !count_char_join_spans by done. simpl length. lia.
Qed.

End ModalHtml.

(** X24: the markup of a preview does not depend on the texts of the card:
    however the title, the description, the icon and the tags read, the
    [innerHTML] given to the modal has the same number of [<], of [>], of
    double quotes and of single quotes as the preview of an empty card,
    plus those of one [span] per tag.  No text of the card opens or closes
    a tag or an attribute. *)
Theorem preview_markup_is_fixed
    (c : ascii) (card : Page.card) (s : Page.state) :
  c ∈ ["<"; ">"; "034"; "'"]%char →
  ∃ html,
    Page.overlays (Page.openProjectModal card s) =
      Page.overlays s ++ [(Page.next_overlay s, html)] ∧
    Page.count_char c html =
      Page.count_char c (Page.modal_html "" "" "" []) +
      length (Page.tag_spans card) * Page.count_char c (Page.span_html "").
Proof.
  intros Hc. eexists. split; [reflexivity |].
  rewrite count_char_modal_html by done. by rewrite length_fmap.
Qed.

(** ** validateEmail *)

Section RegexLemmas.

Import Regex Contact.

Implicit Types (r : regex) (s : list N) (c : N).

Lemma nullable_lang r : nullable r = true ↔ lang r [].
Proof.
  induction r as [| | p | r1 IH1 r2 IH2 | r1 IH1 r2 IH2 | r1 IH1]; simpl.
  - split; [discriminate | done].
  - done.
  - split; [discriminate | by intros (c & H & _)].
  - rewrite andb_true_iff, IH1, IH2. split.
    + intros [H1 H2]. by exists [], [].
    + intros (s1 & s2 & Hs & H1 & H2).
      symmetry in Hs. apply app_eq_nil in Hs as [-> ->]. done.
  - rewrite orb_true_iff, IH1, IH2. done.
  - split; [intros _; constructor | done].
Qed.

Lemma star_cons_inv (L : list N → Prop) c s :
  star L (c :: s) → ∃ s1 s2, s = s1 ++ s2 ∧ L (c :: s1) ∧ star L s2.
Proof.
  intros H. remember (c :: s) as t eqn:Ht.
  induction H as [| s1 s2 H1 H2 IH]; [discriminate |].
  destruct s1 as [| c1 s1]; simpl in Ht.
  - by apply IH.
  - injection Ht as -> <-. by exists s1, s2.
Qed.

Lemma deriv_lang r c s : lang (deriv c r) s ↔ lang r (c :: s).
Proof.
  revert s.
  induction r as [| | p | r1 IH1 r2 IH2 | r1 IH1 r2 IH2 | r1 IH1];
    intros s; simpl.
  - done.
  - split; [done | discriminate].
  - destruct (p c) eqn:Hp; simpl.
    + split.
      * intros ->. by exists c.
      * by intros (c' & [= <- ->] & _).
    + split; [done |]. intros (c' & [= <- ->] & Hp'). congruence.
  - assert ((∃ s1 s2, s = s1 ++ s2 ∧ lang (deriv c r1) s1 ∧ lang r2 s2) ↔
            (∃ s1 s2, s = s1 ++ s2 ∧ lang r1 (c :: s1) ∧ lang r2 s2)) as Hseq.
    { split; intros (s1 & s2 & Hs & H1 & H2); exists s1, s2;
        (split_and!; [done | by apply IH1 | done]). }
    destruct (nullable r1) eqn:Hn; simpl.
    + rewrite Hseq, IH2. split.
      * intros [(s1 & s2 & -> & H1 & H2) | H2].
        -- by exists (c :: s1), s2.
        -- exists [], (c :: s). split_and!; [done | | done].
           by apply nullable_lang.
      * intros (s1 & s2 & Hs & H1 & H2). destruct s1 as [| c1 s1]; simpl in Hs.
        -- right. by rewrite Hs.
        -- injection Hs as <- ->. left. by exists s1, s2.
    + rewrite Hseq. split.
      * intros (s1 & s2 & -> & H1 & H2). by exists (c :: s1), s2.
      * intros (s1 & s2 & Hs & H1 & H2). destruct s1 as [| c1 s1]; simpl in Hs.
        -- apply nullable_lang in H1. congruence.
        -- injection Hs as <- ->. by exists s1, s2.
  - by rewrite IH1, IH2.
  - split.
    + intros (s1 & s2 & -> & H1 & H2).
      change (star (lang r1) ((c :: s1) ++ s2)).
      constructor; [by apply IH1 | done].
    + intros (s1 & s2 & -> & H1 & H2)%star_cons_inv.
      exists s1, s2. split_and!; [done | by apply IH1 | done].
Qed.

(** The derivative matcher decides membership in the language. *)
Lemma test_lang r s : test r s = true ↔ lang r s.
Proof.
  revert r. induction s as [| c s IH]; intros r; simpl.
  - apply nullable_lang.
  - by rewrite IH, deriv_lang.
Qed.

Lemma star_cls (p : N → bool) s :
  star (lang (Cls p)) s ↔ Forall (λ c, p c = true) s.
Proof.
  split.
  - induction 1 as [| s1 s2 (c & -> & Hp) _ IH]; [constructor |].
    simpl. by constructor.
  - induction 1 as [| c s Hp _ IH]; [constructor |].
    change (star (lang (Cls p)) ([c] ++ s)).
    constructor; [by exists c | done].
Qed.

Lemma plus_cls (p : N → bool) s :
  lang (Plus (Cls p)) s ↔ s ≠ [] ∧ Forall (λ c, p c = true) s.
Proof.
  unfold Plus. simpl. split.
  - intros (s1 & s2 & -> & (c & -> & Hp) & H2%star_cls).
    split; [done |]. simpl. by constructor.
  - intros [Hne H]. destruct H as [| c s Hp H]; [done |].
    exists [c], s. split_and!; [done | by exists c | by apply star_cls].
Qed.

Lemma chr_lang c s : lang (Chr c) s ↔ s = [c].
Proof.
  unfold Chr. simpl. split.
  - intros (c' & -> & ->%N.eqb_eq). done.
  - intros ->. exists c. split; [done |]. apply N.eqb_refl.
Qed.

Lemma email_re_lang s :
  lang email_re s ↔
  ∃ u a b, s = u ++ 64%N :: a ++ 46%N :: b ∧
           u ≠ [] ∧ a ≠ [] ∧ b ≠ [] ∧
           Forall (λ c, plain c = true) u ∧
           Forall (λ c, plain c = true) a ∧
           Forall (λ c, plain c = true) b.
Proof.
  unfold email_re.
  change (lang (Seq ?x ?y) s)
    with (∃ s1 s2, s = s1 ++ s2 ∧ lang x s1 ∧ lang y s2).
  split.
  - intros (u & s2 & -> & [Hu Hu']%plus_cls & H2).
    destruct H2 as (x & s3 & -> & ->%chr_lang & H3).
    destruct H3 as (a & s4 & -> & [Ha Ha']%plus_cls & H4).
    destruct H4 as (y & b & -> & ->%chr_lang & [Hb Hb']%plus_cls).
    exists u, a, b. split_and!; done.
  - intros (u & a & b & -> & Hu & Ha & Hb & Hu' & Ha' & Hb').
    exists u, (64%N :: a ++ 46%N :: b).
    split_and!; [done | by apply plus_cls |].
    exists [64%N], (a ++ 46%N :: b).
    split_and!; [done | by apply chr_lang |].
    exists a, (46%N :: b).
    split_and!; [done | by apply plus_cls |].
    exists [46%N], b.
    split_and!; [done | by apply chr_lang | by apply plus_cls].
Qed.

End RegexLemmas.

Section ContactForm.

Import Regex Contact.

Implicit Types (s : state) (f : fields) (rnd : string).

Lemma plain_spec (c : N) :
  plain c = true ↔ space c = false ∧ c ≠ 64%N.
Proof.
  unfold plain. rewrite negb_true_iff, orb_false_iff, N.eqb_neq. done.
Qed.

Lemma toast_id_generated rnd :
  toast_id opts_error rnd = VStr ("t_" +:+ rnd) ∧
  toast_id opts_success rnd = VStr ("t_" +:+ rnd) ∧
  toast_id opts_sending rnd = VStr "sending".
Proof. done. Qed.

Lemma sending_not_generated rnd : VStr "sending" ≠ VStr ("t_" +:+ rnd).
Proof. discriminate. Qed.


(** X13: [validateEmail] accepts exactly the texts of the form
    [local@left.right] in which [local], [left] and [right] are non-empty
    and contain neither white space nor [@]; a dot may occur in any of the
    three parts. *)
Theorem validateEmail_accepts_exactly (e : list N) :
  validateEmail e = true ↔
  ∃ local left right,
    e = local ++ 64%N :: left ++ 46%N :: right ∧
    local ≠ [] ∧ left ≠ [] ∧ right ≠ [] ∧
    Forall (λ c, space c = false ∧ c ≠ 64%N) (local ++ left ++ right).
Proof.
  unfold validateEmail. rewrite test_lang, email_re_lang.
  split.
  - intros (u & a & b & -> & Hu & Ha & Hb & Fu & Fa & Fb).
    exists u, a, b. split_and!; try done.
    rewrite !Forall_app. split_and!;
      (eapply Forall_impl; [eassumption |]); intros c; by apply plain_spec.
  - intros (u & a & b & -> & Hu & Ha & Hb & F).
    rewrite !Forall_app in F. destruct F as (Fu & Fa & Fb).
    exists u, a, b. split_and!; try done;
      (eapply Forall_impl; [eassumption |]); intros c; by apply plain_spec.
Qed.

(** X14: a text that [validateEmail] accepts has exactly one [@], no white
    space anywhere (so none at its ends either), at least five code units,
    and neither starts with [@] nor ends with [@]. *)
Theorem validateEmail_necessary (e : list N) :
  validateEmail e = true →
  length (filter (λ c, c = 64%N) e) = 1 ∧
  Forall (λ c, space c = false) e ∧
  5 ≤ length e ∧
  head e ≠ Some 64%N ∧ last e ≠ Some 64%N.
Proof.
  unfold validateEmail. rewrite test_lang, email_re_lang.
  intros (u & a & b & -> & Hu & Ha & Hb & Fu & Fa & Fb).
  assert (∀ l, Forall (λ c, plain c = true) l →
               filter (λ c, c = 64%N) l = [] ∧
               Forall (λ c, space c = false) l ∧
               Forall (λ c, c ≠ 64%N) l) as Hplain.
  { intros l Hl. split_and!.
    - apply elem_of_nil_inv. intros c [-> Hin]%list_elem_of_filter.
      rewrite Forall_forall in Hl. apply Hl, plain_spec in Hin.
      destruct Hin as [_ Hn]. by apply Hn.
    - eapply Forall_impl; [exact Hl |]. intros c Hc. apply plain_spec in Hc as [? ?]. done.
    - eapply Forall_impl; [exact Hl |]. intros c Hc. apply plain_spec in Hc as [? ?]. done. }
  destruct (Hplain u Fu) as (Cu & Su & Nu).
  destruct (Hplain a Fa) as (Ca & Sa & Na).
  destruct (Hplain b Fb) as (Cb & Sb & Nb).
  split_and!.
  - rewrite filter_app, Cu, filter_cons, decide_True by done.
    rewrite filter_app, Ca, filter_cons, decide_False by done.
    by rewrite Cb.
  - apply Forall_app. split; [done |]. constructor; [done |].
    apply Forall_app. split; [done |]. by constructor.
  - rewrite length_app. simpl. rewrite length_app. simpl.
    destruct u; [done |]. destruct a; [done |]. destruct b; [done |].
    simpl. lia.
  - destruct u as [| c u]; [done |]. simpl. intros [= ->].
    apply Forall_cons in Nu as [Hc _]. done.
  - rewrite app_comm_cons, app_assoc.
    change (46%N :: b) with ([46%N] ++ b). rewrite app_assoc.
    destruct b as [| c b _] using rev_ind; [done |].
    rewrite app_assoc, last_snoc. intros [= ->].
    apply Forall_app in Nb as [_ Hc]. apply Forall_cons in Hc as [Hc _]. done.
Qed.

(** X15: a submission that fails the validation (an empty name, subject or
    message, or an e-mail address that [validateEmail] rejects) shows one
    new toast with the error text and the error look, which closes itself
    after 3000; the handler does not go on to send, and every other toast,
    a "sending" toast included, is left as it was. *)
Theorem submit_invalid_shows_one_error
    (f : fields) (rnd : string) (s : state) :
  wf s →
  invalid f = true →
  toasts s !! VStr ("t_" +:+ rnd) = None →
  let id := VStr ("t_" +:+ rnd) in
  let r := submit f rnd s in
  r.2 = false ∧
  size (toasts r.1) = S (size (toasts s)) ∧
  displayed id r.1 = Some "Please fill all fields correctly." ∧
  style <$> store r.1 !! length (store s) =
    Some (toast_style (VStr "error")) ∧
  timers r.1 = timers s ++ [Timer (now s + 3000) id] ∧
  (∀ k, k ≠ id →
     toasts r.1 !! k = toasts s !! k ∧ displayed k r.1 = displayed k s).
Proof.
  intros Hwf Hinv E id r. subst r id. unfold submit. rewrite Hinv.
  cbn [fst snd].
  destruct (showToast_fresh_fields s "Please fill all fields correctly."
              opts_error rnd E) as (Ht & Hst & Hc).
  destruct (fresh_entry_facts s _ _ _ Hwf E Ht Hst Hc)
    as (F1 & F2 & F3 & F4 & F5).
  split_and!; try done.
  - by rewrite F3.
  - rewrite showToast_timers.
    change (toast_id opts_error rnd) with (VStr ("t_" +:+ rnd)). by rewrite E.
Qed.


(** X17: when the wait is over the handler shows the success text in a new
    toast with the default look (there is no look of its own for
    [type: 'success']), which closes itself after 3000, and removes the
    "sending" toast: whatever happened meanwhile, no entry is left under
    [sending], its element is out of the wrapper, and all other toasts are
    as they were. *)
Theorem submit_resume_replaces_sending (rnd : string) (s : state) :
  wf s →
  toasts s !! VStr ("t_" +:+ rnd) = None →
  let id := VStr ("t_" +:+ rnd) in
  let s' := submit_resume rnd s in
  toasts s' !! VStr "sending" = None ∧
  displayed id s' = Some "Message sent — I will contact you soon!" ∧
  style <$> store s' !! length (store s) = Some (toast_style VUndef) ∧
  timers s' = timers s ++ [Timer (now s + 3000) id] ∧
  (∀ h, toasts s !! VStr "sending" = Some h →
     (h ∉ children s') ∧ length (children s') = length (children s)) ∧
  (toasts s !! VStr "sending" = None →
     children s' = children s ++ [length (store s)]) ∧
  (∀ k, k ≠ id → k ≠ VStr "sending" → displayed k s' = displayed k s) ∧
  wf s'.
Proof.
  intros Hwf E id s'. subst s' id. unfold submit_resume.
  set (msg := "Message sent — I will contact you soon!").
  set (s1 := (showToast msg opts_success rnd s).2).
  destruct (showToast_fresh_fields s msg opts_success rnd E)
    as (Ht & Hst & Hc).
  fold s1 in Ht, Hst, Hc.
  destruct (fresh_entry_facts s s1 _ _ Hwf E Ht Hst Hc)
    as (F1 & F2 & F3 & F4 & F5).
  assert (wf s1) as Hwf1 by (by apply wf_showToast).
  assert (timers s1 =
          timers s ++ [Timer (now s + 3000) (VStr ("t_" +:+ rnd))]) as Hti.
  { subst s1. rewrite showToast_timers.
    change (toast_id opts_success rnd) with (VStr ("t_" +:+ rnd)).
    by rewrite E. }
  destruct (F5 (VStr "sending") (sending_not_generated rnd)) as [Hs1 Hds1].
  split_and!.
  - rewrite removeToast_lookup. by rewrite decide_True.
  - unfold displayed in *. rewrite removeToast_store, removeToast_lookup.
    rewrite decide_False; [done |].
    intros [Heq _]. by apply (sending_not_generated rnd).
  - rewrite removeToast_store, F3. done.
  - by rewrite removeToast_timers.
  - intros h Eh. rewrite <- Hs1 in Eh.
    rewrite (removeToast_children (VStr "sending") s1 h eq_refl Eh).
    split.
    + intros [Hne _]%list_elem_of_filter. done.
    + assert (S (length (filter (λ x, x ≠ h) (children s1))) =
              length (children s1)) as Hlen.
      { apply filter_ne_length; [by apply wf_nodup |].
        by eapply wf_reg_child. }
      rewrite Hc, length_app in Hlen. simpl in Hlen. rewrite Hc. lia.
  - intros Eh. rewrite <- Hs1 in Eh.
    by rewrite (removeToast_absent _ _ Eh).
  - intros k Hk1 Hk2. destruct (F5 k Hk1) as [Hlk Hdk].
    rewrite <- Hdk. unfold displayed.
    rewrite removeToast_store, removeToast_lookup.
    rewrite decide_False; [done |]. intros [Heq _]. by apply Hk2.
  - by apply wf_removeToast.
Qed.

(** X18: a whole valid submission (show "sending", wait 900, show the
    result, remove "sending") adds exactly one toast to what the page would
    show anyway: no entry is left under [sending], every other toast is
    there or not exactly as if nothing had been submitted, and the success
    toast is gone again 3000 later. *)
Theorem submit_whole_flow
    (f : fields) (rnd1 rnd2 : string) (s : state) :
  wf s →
  invalid f = false →
  toasts s !! VStr "sending" = None →
  toasts (advance send_delay s) !! VStr ("t_" +:+ rnd2) = None →
  let id := VStr ("t_" +:+ rnd2) in
  let s1 := (submit f rnd1 s).1 in
  let s2 := advance send_delay s1 in
  let s3 := submit_resume rnd2 s2 in
  toasts s3 !! VStr "sending" = None ∧
  is_Some (toasts s3 !! id) ∧
  (∀ k, k ≠ id → k ≠ VStr "sending" →
     toasts s3 !! k = toasts (advance send_delay s) !! k) ∧
  toasts (advance 3000 s3) !! id = None.
Proof.
  intros Hwf Hinv Es Eid id s1 s2 s3. subst id.
  set (id := VStr ("t_" +:+ rnd2)) in *.
  assert (s1 = (showToast "Sending message..." opts_sending rnd1 s).2) as Hs1.
  { subst s1. unfold submit. by rewrite Hinv. }
  assert (timers s1 = timers s) as Ht1.
  { rewrite Hs1, showToast_timers.
    change (toast_id opts_sending rnd1) with (VStr "sending").
    by rewrite Es. }
  assert (now s1 = now s) as Hn1 by (rewrite Hs1; apply showToast_now).
  assert (∀ k, k ≠ VStr "sending" →
               toasts s2 !! k = toasts (advance send_delay s) !! k) as H2.
  { intros k Hk. apply advance_lookup_congr; [done .. |].
    rewrite Hs1. by apply showToast_lookup_other. }
  assert (toasts s2 !! id = None) as E2.
  { rewrite H2; [done |]. intros Heq.
    by apply (sending_not_generated rnd2). }
  set (s2' := (showToast "Message sent — I will contact you soon!"
                 opts_success rnd2 s2).2).
  assert (∀ k, toasts s3 !! k =
               if decide (k = VStr "sending") then None
               else toasts s2' !! k) as H3.
  { intros k. subst s3. unfold submit_resume. fold s2'.
    rewrite removeToast_lookup.
    destruct (decide (k = VStr "sending")) as [-> | Hne].
    - by rewrite decide_True.
    - rewrite decide_False; [done |]. intros [Heq _]. by apply Hne. }
  assert (toasts s2' !! id = Some (length (store s2))) as E2'.
  { subst s2'. rewrite showToast_toasts.
    change (toast_id opts_success rnd2) with id. rewrite E2.
    apply lookup_insert_eq. }
  split_and!.
  - rewrite H3. by rewrite decide_True.
  - rewrite H3, decide_False, E2'; [by eexists |].
    intros Heq. by apply (sending_not_generated rnd2).
  - intros k Hk1 Hk2. rewrite H3, decide_False by done.
    subst s2'. rewrite showToast_lookup_other by done. by apply H2.
  - apply advance_gone with (Timer (now s2 + 3000) id);
      [done | | done |].
    + subst s3. unfold submit_resume. rewrite removeToast_timers.
      rewrite showToast_timers.
      change (toast_id opts_success rnd2) with id. rewrite E2.
      apply elem_of_app. right. by apply list_elem_of_singleton.
    + subst s3. unfold submit_resume.
      rewrite removeToast_now, showToast_now. simpl. lia.
Qed.

End ContactForm.

(** ** Examples of the further properties *)

Lemma showToast_fresh_id_example :
  wf init ∧
  children (showToast "Hello" opts_x "r" init).2 = [0] ∧
  displayed (VStr "x") (showToast "Hello" opts_x "r" init).2 = Some "Hello".
Proof.
  split; [exact wf_init |].
  destruct (showToast_fresh_id_adds_one init "Hello" opts_x "r" wf_init
              eq_refl) as (_ & _ & Hc & _ & _ & Hd & _).
  split; [exact Hc | exact Hd].
Defined.

Lemma removeToast_registered_id_example :
  let s := (showToast "first" opts_x "r" init).2 in
  wf s ∧ toasts s !! VStr "x" = Some 0 ∧
  children (removeToast (VStr "x") s) = [] ∧
  size (toasts (removeToast (VStr "x") s)) = 0.
Proof.
  intros s.
  assert (wf s) as Hwf by (apply wf_showToast, wf_init).
  split; [exact Hwf |]. split; [reflexivity |].
  destruct (removeToast_registered_id_removes_one s (VStr "x") 0 Hwf
              eq_refl eq_refl) as (_ & Hs & Hc & _).
  split; [exact Hc |]. exact (eq_add_S _ 0 Hs).
Defined.

Lemma reachable_ids_are_truthy_example :
  toasts (run [Show "first" opts_x "r"] init) !! VStr "x" = Some 0 ∧
  toasts (removeToast (VStr "x") (run [Show "first" opts_x "r"] init))
    !! VStr "x" = None.
Proof.
  split; [reflexivity |].
  exact (proj1 (proj2 (reachable_ids_are_truthy [Show "first" opts_x "r"]
                         (VStr "x") 0 eq_refl))).
Defined.

Lemma showToast_then_removeToast_example :
  wf init ∧
  toasts (removeToast (VStr "x") (showToast "first" opts_x "r" init).2) = ∅ ∧
  timers (removeToast (VStr "x") (showToast "first" opts_x "r" init).2) =
    [Timer 3000 (VStr "x")].
Proof.
  split; [exact wf_init |].
  destruct (showToast_then_removeToast_restores init "first" opts_x "r"
              wf_init eq_refl) as (Ht & _ & Hti & _).
  split; [exact Ht | exact Hti].
Defined.

Lemma escapeHtml_injective_example :
  escapeHtml (VStr ("a" +:+ "<b")) = escapeHtml (VStr "a<b") ∧
  "a" +:+ "<b" = "a<b".
Proof.
  split; [reflexivity |].
  exact (escapeHtml_injective ("a" +:+ "<b") "a<b" eq_refl).
Defined.

Lemma visible_tie_example :
  visible Cases.tie_a_b = Some (Entry "a" true (1 # 2)) ∧
  ∃ before after,
    Cases.tie_a_b = before ++ Entry "a" true (1 # 2) :: after ∧
    (∀ e, e ∈ before → isIntersecting e = true →
          (intersectionRatio e < 1 # 2)%Q) ∧
    (∀ e, e ∈ after → isIntersecting e = true →
          (intersectionRatio e <= 1 # 2)%Q).
Proof.
  split; [reflexivity |].
  exact (proj2 (visible_is_first_of_highest_ratio Cases.tie_a_b
                  (Entry "a" true (1 # 2)) eq_refl)).
Defined.

Lemma observe_overrides_example :
  (∃ e, e ∈ only_b ∧ isIntersecting e = true) ∧
  observe "#00bfff" only_b (observe "#00bfff" Cases.tie_a_b nav_abc) =
    observe "#00bfff" only_b nav_abc.
Proof.
  assert (∃ e, e ∈ only_b ∧ isIntersecting e = true) as Hex.
  { exists (Entry "b" true (3 # 4)). split; [| reflexivity].
    apply elem_of_cons. right. apply elem_of_cons. by left. }
  split; [exact Hex |].
  exact (proj1 (observe_overrides_earlier_callbacks "#00bfff" "#00bfff"
                  only_b Cases.tie_a_b nav_abc Hex)).
Defined.

Lemma observe_active_links_example :
  (∃ e, e ∈ only_b ∧ isIntersecting e = true) ∧
  ∃ v, v ∈ only_b ∧ isIntersecting v = true ∧
       length (observe "#00bfff" only_b nav_abc) = 3.
Proof.
  assert (∃ e, e ∈ only_b ∧ isIntersecting e = true) as Hex.
  { exists (Entry "b" true (3 # 4)). split; [| reflexivity].
    apply elem_of_cons. right. apply elem_of_cons. by left. }
  split; [exact Hex |].
  destruct (observe_active_links_point_at_winner "#00bfff" only_b nav_abc Hex)
    as (v & Hin & Hi & _ & HF).
  exists v. split; [exact Hin |]. split; [exact Hi |].
  symmetry. exact (Forall2_length _ _ _ HF).
Defined.

Lemma validateEmail_example :
  Contact.validateEmail (Regex.units "ann@example.org") = true ∧
  length (filter (λ c, c = 64%N) (Regex.units "ann@example.org")) = 1 ∧
  5 ≤ length (Regex.units "ann@example.org").
Proof.
  split; [reflexivity |].
  destruct (validateEmail_necessary (Regex.units "ann@example.org") eq_refl)
    as (H1 & _ & H3 & _).
  split; [exact H1 | exact H3].
Defined.

Lemma submit_invalid_example :
  wf init ∧ Contact.invalid Cases.fields_bad_email = true ∧
  displayed (VStr "t_k3x9") (Contact.submit Cases.fields_bad_email "k3x9" init).1 =
    Some "Please fill all fields correctly." ∧
  toasts (Contact.submit Cases.fields_bad_email "k3x9" init).1 !! VStr "sending"
    = None.
Proof.
  split; [exact wf_init |]. split; [reflexivity |].
  destruct (submit_invalid_shows_one_error Cases.fields_bad_email "k3x9" init
              wf_init eq_refl eq_refl) as (_ & _ & Hd & _ & _ & Hk).
  split; [exact Hd |].
  exact (proj1 (Hk (VStr "sending") (sending_not_generated "k3x9"))).
Defined.


Lemma submit_resume_example :
  let s := (Contact.submit Cases.fields_ok "a1b2" init).1 in
  wf s ∧ toasts s !! VStr "t_k3x9" = None ∧
  toasts (Contact.submit_resume "k3x9" s) !! VStr "sending" = None ∧
  children (Contact.submit_resume "k3x9" s) = [1].
Proof.
  intros s.
  assert (wf s) as Hwf.
  { exact (wf_showToast "Sending message..." opts_sending "a1b2" init
             wf_init). }
  split; [exact Hwf |]. split; [reflexivity |].
  destruct (submit_resume_replaces_sending "k3x9" s Hwf eq_refl)
    as (Hs & _ & _ & _ & _ & _ & _ & _).
  split; [exact Hs | reflexivity].
Defined.

Lemma submit_whole_flow_example :
  wf init ∧
  toasts (advance 3000
            (Contact.submit_resume "k3x9"
               (advance Contact.send_delay
                  (Contact.submit Cases.fields_ok "a1b2" init).1)))
    !! VStr "t_k3x9" = None.
Proof.
  split; [exact wf_init |].
  exact (proj2 (proj2 (proj2
    (submit_whole_flow Cases.fields_ok "a1b2" "k3x9" init wf_init
       eq_refl eq_refl eq_refl)))).
Defined.

Lemma menu_marks_example :
  Page.HamburgerClick ∈ [Page.HamburgerClick; Page.NavLinkClick] ∧
  Page.in_sync
    (Page.run [Page.HamburgerClick; Page.NavLinkClick] Cases.page_closed).
Proof.
  assert (Page.HamburgerClick ∈ [Page.HamburgerClick; Page.NavLinkClick])
    as Hin by (apply elem_of_cons; by left).
  split; [exact Hin |].
  exact (menu_marks_stay_in_sync Cases.page_closed
           [Page.HamburgerClick; Page.NavLinkClick] (or_intror Hin)).
Defined.

Lemma nav_link_click_example :
  Page.navMenu Cases.page_open = Some {["nav-menu"; "active"]} ∧
  Page.overflow (Page.nav_link_click Cases.page_open) = "".
Proof.
  split; [reflexivity |].
  assert ("active" ∈ ({["nav-menu"; "active"]} : gset string)) as Ha.
  { apply elem_of_union. right. by apply elem_of_singleton. }
  exact (proj1 (proj2 (nav_link_click_closes_menu Cases.page_open
                         {["nav-menu"; "active"]} eq_refl
                         (ex_intro _ _ eq_refl))) Ha).
Defined.

Lemma preview_markup_example :
  ("<"%char ∈ ["<"; ">"; "034"; "'"]%char) ∧
  ∃ html,
    Page.overlays (Page.openProjectModal Cases.card_markup Cases.page_closed) =
      [(0, html)] ∧
    Page.count_char "<" html = 28.
Proof.
  assert ("<"%char ∈ ["<"; ">"; "034"; "'"]%char) as Hc
    by (apply elem_of_cons; by left).
  split; [exact Hc |].
  destruct (preview_markup_is_fixed "<" Cases.card_markup Cases.page_closed Hc)
    as (html & Ho & Hn).
  exists html. split; [exact Ho |]. rewrite Hn. reflexivity.
Defined.
